(** * RideTrack: receipt extraction pipeline and ride store (src/server.js)

    A shallow embedding of [server.js].  JavaScript strings are sequences
    of UTF-16 code units; the regular expressions of the two receipt parsers
    are kept as syntax trees and run by a backtracking matcher that follows
    the continuation-passing matcher of ECMA-262 (sec. 22.2.2); the SQLite
    store is an explicit state threaded through the request handlers. *)

From Stdlib Require Import Ascii String.
From Stdlib Require Import List Bool Arith ZArith NArith QArith Qabs Lia.
From Stdlib Require Import Permutation Sorted.
From Stdlib.Strings Require Byte.
Import ListNotations.

Set Implicit Arguments.
Close Scope Q_scope.

(* ================================================================= *)
(** ** JavaScript strings *)

Module JS.

Local Open Scope N_scope.

(** A code unit, and a string as the list of its code units. *)
Definition char := N.
Definition jsstring := list char.

(** Code units of a literal written in this file. *)
Definition lit (s : string) : jsstring :=
  List.map N_of_ascii (list_ascii_of_string s).

Definition char_eqb (a b : char) : bool := N.eqb a b.

Fixpoint str_eqb (a b : jsstring) : bool :=
  match a, b with
  | [], [] => true
  | x :: a', y :: b' => char_eqb x y && str_eqb a' b'
  | _, _ => false
  end.

Definition in_range (lo hi c : char) : bool := (N.leb lo c && N.leb c hi)%bool.

Definition is_digit (c : char) : bool := in_range 48 57 c.
Definition is_upper (c : char) : bool := in_range 65 90 c.
Definition is_lower (c : char) : bool := in_range 97 122 c.

(** [\w] without the [u] flag: [A-Za-z0-9_]. *)
Definition is_word (c : char) : bool :=
  (is_upper c || is_lower c || is_digit c || char_eqb c 95)%bool.

(** WhiteSpace and LineTerminator code points: the set of [\s] and of
    [String.prototype.trim]. *)
Definition is_space (c : char) : bool :=
  (in_range 9 13 c || char_eqb c 32 || char_eqb c 160 || char_eqb c 5760
   || in_range 8192 8202 c || char_eqb c 8232 || char_eqb c 8233
   || char_eqb c 8239 || char_eqb c 8287 || char_eqb c 12288
   || char_eqb c 65279)%bool.

(** LineTerminator: what [.] refuses without the [s] flag. *)
Definition is_line_terminator (c : char) : bool :=
  (char_eqb c 10 || char_eqb c 13 || char_eqb c 8232 || char_eqb c 8233)%bool.

Definition lower_char (c : char) : char := if is_upper c then (c + 32)%N else c.
Definition upper_char (c : char) : char := if is_lower c then (c - 32)%N else c.

(** [String.prototype.toLowerCase].  Only the ASCII letters are mapped: the
    source compares the result with ASCII literals only (['uber'], ['99'],
    the month names reached through [\w+]), and no code unit outside ASCII
    has a lower-case mapping that contains a code unit of those literals. *)
Definition toLowerCase (s : jsstring) : jsstring := List.map lower_char s.

Fixpoint startsWith (s p : jsstring) : bool :=
  match p, s with
  | [], _ => true
  | a :: p', b :: s' => char_eqb a b && startsWith s' p'
  | _ :: _, [] => false
  end.

(** [String.prototype.includes]. *)
Fixpoint includes (s p : jsstring) : bool :=
  startsWith s p ||
  match s with
  | [] => false
  | _ :: s' => includes s' p
  end.

(** [String.prototype.replace] with a one-character string pattern: only
    the first occurrence is replaced. *)
Fixpoint replace_first (a b : char) (s : jsstring) : jsstring :=
  match s with
  | [] => []
  | c :: s' => if char_eqb c a then b :: s' else c :: replace_first a b s'
  end.

Fixpoint trimStart (s : jsstring) : jsstring :=
  match s with
  | c :: s' => if is_space c then trimStart s' else s
  | [] => []
  end.

(** [String.prototype.trim]. *)
Definition trim (s : jsstring) : jsstring :=
  rev (trimStart (rev (trimStart s))).

(** Truthiness of a string: the empty string is falsy. *)
Definition str_truthy (s : jsstring) : bool :=
  match s with [] => false | _ => true end.

(** [x || ''] for a possibly missing string [x]. *)
Definition or_empty (x : option jsstring) : jsstring :=
  match x with Some s => if str_truthy s then s else [] | None => [] end.

End JS.
Export JS.

(* ================================================================= *)
(** ** Regular expressions *)

Module RegExp.

Local Open Scope nat_scope.

(** Pattern syntax, as far as the six patterns of the source need it. *)
Inductive regex : Type :=
| Chr (a : char)                         (* a pattern character *)
| Cls (p : char -> bool)                 (* a class: \d \s \w [..] *)
| Dot                                    (* . *)
| Eos                                    (* $ without the m flag *)
| Seq (r1 r2 : regex)
| Alt (r1 r2 : regex)                    (* r1|r2 *)
| Group (i : nat) (r : regex)            (* i-th capturing group *)
| Repeat (r : regex) (min : nat) (max : option nat) (greedy : bool).

Record flags : Type := { ignoreCase : bool; dotAll : bool }.

(** Captures: the most recent binding of a group index comes first. *)
Definition caps := list (nat * jsstring).

Fixpoint group (i : nat) (c : caps) : option jsstring :=
  match c with
  | [] => None
  | (j, s) :: c' => if Nat.eqb i j then Some s else group i c'
  end.

Definition cont := jsstring -> caps -> option caps.
Definition matcher := cont -> cont.

(** Canonicalize without the [u] flag, on the ASCII letters. *)
Definition canon (f : flags) (c : char) : char :=
  if ignoreCase f then upper_char c else c.

Definition chr_matches (f : flags) (a ch : char) : bool :=
  char_eqb (canon f a) (canon f ch).

(** CharacterSetMatcher: under [i] a class accepts a character when it holds
    a member with the same canonical form. *)
Definition cls_matches (f : flags) (p : char -> bool) (ch : char) : bool :=
  if ignoreCase f then (p ch || p (upper_char ch) || p (lower_char ch))%bool
  else p ch.

Definition dot_matches (f : flags) (ch : char) : bool :=
  if dotAll f then true else negb (is_line_terminator ch).

Definition one (ok : char -> bool) : matcher :=
  fun k x c =>
    match x with
    | ch :: y => if ok ch then k y c else None
    | [] => None
    end.

Definition orelse (a : option caps) (b : unit -> option caps) : option caps :=
  match a with Some z => Some z | None => b tt end.

(** RepeatMatcher (ECMA-262 22.2.2.3.1).  [x] is the rest of the input at the
    start of the iteration.  An iteration that is not required and consumes
    nothing fails; so every call either uses up one required iteration or
    shortens the input, and [fuel] above [min + length x] is never used up
    (see [RepeatMatcher_fuel]).  No pattern of the source has a capturing
    group inside a quantified atom, so there is no capture to reset. *)
Fixpoint RepeatMatcher (fuel : nat) (m : matcher) (min : nat)
    (max : option nat) (greedy : bool) (k : cont) (x : jsstring) (c : caps)
    {struct fuel} : option caps :=
  match max with
  | Some O => k x c
  | _ =>
    match fuel with
    | O => None
    | S fuel' =>
      let d : cont := fun y cy =>
        if (Nat.eqb min 0 && Nat.eqb (length y) (length x))%bool then None
        else RepeatMatcher fuel' m (Nat.pred min) (option_map Nat.pred max)
               greedy k y cy in
      if negb (Nat.eqb min 0) then m d x c
      else if greedy then orelse (m d x c) (fun _ => k x c)
      else orelse (k x c) (fun _ => m d x c)
    end
  end.

(** The matcher of a pattern.  The input is the part of the string from the
    current position on: no pattern of the source looks behind it. *)
Fixpoint compile (f : flags) (r : regex) {struct r} : matcher :=
  match r with
  | Chr a => one (chr_matches f a)
  | Cls p => one (cls_matches f p)
  | Dot => one (dot_matches f)
  | Eos => fun k x c => match x with [] => k x c | _ :: _ => None end
  | Seq r1 r2 => fun k => compile f r1 (compile f r2 k)
  | Alt r1 r2 => fun k x c =>
      orelse (compile f r1 k x c) (fun _ => compile f r2 k x c)
  | Group i r' => fun k x c =>
      compile f r' (fun y cy =>
        k y ((i, firstn (length x - length y) x) :: cy)) x c
  | Repeat r' min max greedy => fun k x c =>
      RepeatMatcher (S (min + length x)) (compile f r') min max greedy k x c
  end.

Definition accept : cont := fun _ c => Some c.

(** RegExpBuiltinExec for a pattern without [g] or [y]: the match is tried at
    index 0, 1, ... up to the length of the string, the first success wins. *)
Fixpoint search (m : matcher) (x : jsstring) : option caps :=
  match m accept x [] with
  | Some c => Some c
  | None =>
    match x with
    | [] => None
    | _ :: y => search m y
    end
  end.

Record RegExp : Type := { pattern : regex; flag : flags }.

(** [String.prototype.match] with a non-global pattern: the captures of the
    first match, or [None] for [null]. *)
Definition str_match (s : jsstring) (re : RegExp) : option caps :=
  search (compile (flag re) (pattern re)) s.

(** Shorthands to write the patterns. *)
Definition star (r : regex) : regex := Repeat r 0 None true.
Definition plus (r : regex) : regex := Repeat r 1 None true.
Definition lazy_plus (r : regex) : regex := Repeat r 1 None false.
Definition opt (r : regex) : regex := Repeat r 0 (Some 1%nat) true.

Fixpoint word (s : jsstring) : regex :=
  match s with
  | [] => Repeat Dot 0 (Some 0%nat) true
  | [a] => Chr a
  | a :: s' => Seq (Chr a) (word s')
  end.

Fixpoint seqs (rs : list regex) : regex :=
  match rs with
  | [] => Repeat Dot 0 (Some 0%nat) true
  | [r] => r
  | r :: rs' => Seq r (seqs rs')
  end.

End RegExp.
Export RegExp.

(* ================================================================= *)
(** ** Numbers and dates *)

Module Num.

(** A JavaScript number: NaN, or the double [q].  The numbers that the
    program computes are rounded to a double where they are made (see
    [round_double]); the sign of a zero is not kept.  An infinity has no
    constructor of its own: it is the rational beyond the range of the
    doubles that overflowed ([is_infinite]), which keeps its sign and
    which no branch of the source tells apart from it. *)
Inductive JSNum : Type :=
| NaN
| Num (q : Q).

(** 2^e. *)
Definition pow2 (e : Z) : Q :=
  if (0 <=? e)%Z then inject_Z (2 ^ e) else 1 # Z.to_pos (2 ^ (- e)).

(** The exponent [e] with [2^e <= q < 2^(e+1)], for a positive [q]: the
    difference of the binary logarithms of numerator and denominator, or
    one less. *)
Definition floor_log2 (q : Q) : Z :=
  let e := (Z.log2 (Qnum q) - Z.log2 (Zpos (Qden q)))%Z in
  if Qle_bool (pow2 e) q then e else (e - 1)%Z.

(** The nearest integer, a tie going to the even one. *)
Definition round_half_even (q : Q) : Z :=
  let k := (Qnum q / Zpos (Qden q))%Z in
  let r := (Qnum q mod Zpos (Qden q))%Z in
  match (2 * r ?= Zpos (Qden q))%Z with
  | Lt => k
  | Gt => (k + 1)%Z
  | Eq => if Z.even k then k else (k + 1)%Z
  end.

(** Rounding of a positive rational to binary64, to nearest, ties to even,
    with no bound on the exponent from above: the nearest multiple of the
    unit in the last place, which is [2^(e-52)] for [2^e <= q < 2^(e+1)]
    and [2^-1074] below [2^-1022]. *)
Definition nearest_double (q : Q) : Q :=
  let e := Z.max (floor_log2 q) (-1022) in
  let ulp := pow2 (e - 52) in
  Qred (inject_Z (round_half_even (q / ulp)) * ulp).

(** The Number value for [q] (ECMA-262, 6.1.6.1): the double nearest to
    [q].  A rational that is a double is returned as it is; one that
    rounds to [2^1024] or beyond is infinite and is returned as it is. *)
Definition round_double (q : Q) : Q :=
  if Qeq_bool q 0 then q
  else
    let r := nearest_double (Qabs q) in
    if Qle_bool (pow2 1024) r then q
    else if Qeq_bool r (Qabs q) then q
    else if Qle_bool 0 q then r else Qopp r.

(** [q] stands for an infinity. *)
Definition is_infinite (q : Q) : bool :=
  negb (Qeq_bool q 0) && Qle_bool (pow2 1024) (nearest_double (Qabs q)).

(** The longest prefix of characters in a class, and what follows it. *)
Fixpoint span (p : char -> bool) (s : jsstring) : jsstring * jsstring :=
  match s with
  | c :: s' =>
      if p c then let (a, b) := span p s' in (c :: a, b) else ([], s)
  | [] => ([], [])
  end.

Definition digit_val (c : char) : Z := Z.of_N c - 48.

(** MV of DecimalDigits. *)
Definition digits_val (ds : jsstring) : Z :=
  fold_left (fun acc c => 10 * acc + digit_val c)%Z ds 0%Z.

Definition pow10 (n : nat) : positive := Z.to_pos (10 ^ Z.of_nat n).

(** MV of [i.f]: the MV of [i] plus the MV of [f] times 10^-n, [n] the
    number of digits of [f]. *)
Definition decimal (i f : jsstring) : Q :=
  (inject_Z (digits_val i) + (digits_val f # pow10 (length f)))%Q.

(** [parseFloat] on a string without leading white space, sign, exponent
    part or [Infinity]: the longest prefix that is [digits], [digits.],
    [digits.digits] or [.digits], and NaN when there is none; the result is
    the Number value for the MV of that prefix, rounded correctly whatever
    the number of its digits, as V8 does.  Its one argument in the
    source is a capture of [[0-9,]+\.?[0-9]*] after [replace], a string of
    digits, commas and dots (see [value_capture_alphabet]). *)
Definition parseFloat (s : jsstring) : JSNum :=
  let (i, r) := span is_digit s in
  let whole := match i with
               | [] => NaN
               | _ => Num (round_double (inject_Z (digits_val i)))
               end in
  match r with
  | h :: r' =>
      if char_eqb h 46%N then
        let (f, _) := span is_digit r' in
        match i, f with
        | [], [] => NaN
        | _, _ => Num (round_double (decimal i f))
        end
      else whole
  | [] => whole
  end.

(** Half of the least positive double, 2^-1075. *)
Definition half_min_double : Q := 1 # (2 ^ 1075).

(** The double nearest to [q] is zero: [|q| <= 2^-1075] (a tie goes to the
    even neighbour, zero).  On a double this is the test [q = 0]. *)
Definition rounds_to_zero (q : Q) : bool :=
  Qle_bool (Qabs q) half_min_double.

(** ToBoolean of a number: NaN and zero are falsy. *)
Definition num_truthy (v : JSNum) : bool :=
  match v with
  | NaN => false
  | Num q => negb (rounds_to_zero q)
  end.

(** ToNumber of a string, on the strings of decimal digits (the captures of
    [\d{1,2}] and [\d{4}], see [date99_captures_digits]); the empty string
    is 0 and any other string is taken as not numeric. *)
Definition ToNumber (s : jsstring) : JSNum :=
  match s with
  | [] => Num 0
  | _ => if forallb is_digit s then Num (inject_Z (digits_val s)) else NaN
  end.

(** [x - 1]. *)
Definition minus_one (v : JSNum) : JSNum :=
  match v with
  | NaN => NaN
  | Num q => Num (q - 1)%Q
  end.

(** ToIntegerOrInfinity of a finite number: truncation towards zero. *)
Definition trunc (q : Q) : Z := Z.quot (Qnum q) (Zpos (Qden q)).

End Num.
Export Num.

Module Date.

Local Open Scope Z_scope.

(** A Date object by its time value, [InvalidDate] when that is NaN.  The
    time value is kept in local time (what getFullYear, getMonth and getDate
    read); the shift to UTC depends on the time zone of the host. *)
Inductive JSDate : Type :=
| InvalidDate
| ValidDate (t : Z).

Definition msPerDay : Z := 86400000.

(** Day numbers and leap years (ECMA-262, 21.4.1). *)
Definition DaysInYear (y : Z) : Z :=
  if negb (y mod 4 =? 0) then 365
  else if negb (y mod 100 =? 0) then 366
  else if negb (y mod 400 =? 0) then 365
  else 366.

Definition InLeapYear (y : Z) : Z := if DaysInYear y =? 366 then 1 else 0.

Definition DayFromYear (y : Z) : Z :=
  365 * (y - 1970) + (y - 1969) / 4 - (y - 1901) / 100 + (y - 1601) / 400.

(** The day within the year on which month [mn] (0 to 11) starts. *)
Definition MonthStart (leap mn : Z) : Z :=
  match mn with
  | 0 => 0
  | 1 => 31
  | 2 => 59 + leap
  | 3 => 90 + leap
  | 4 => 120 + leap
  | 5 => 151 + leap
  | 6 => 181 + leap
  | 7 => 212 + leap
  | 8 => 243 + leap
  | 9 => 273 + leap
  | 10 => 304 + leap
  | _ => 334 + leap
  end.

(** MakeDay on integers: the day number of the first of month [m mod 12] of
    year [y + floor (m / 12)], plus [dt - 1]. *)
Definition MakeDay (y m dt : Z) : Z :=
  let ym := y + m / 12 in
  let mn := m mod 12 in
  DayFromYear ym + MonthStart (InLeapYear ym) mn + dt - 1.

Definition MakeFullYear (y : Z) : Z :=
  if (0 <=? y) && (y <=? 99) then 1900 + y else y.

Definition TimeClip (t : Z) : JSDate :=
  if Z.abs t >? 8640000000000000 then InvalidDate else ValidDate t.

(** [new Date(year, month, day)]: a NaN among the arguments gives the
    Invalid Date; otherwise the arguments are truncated and carried over by
    MakeDay, the time within the day being 0. *)
Definition new_Date (year month day : JSNum) : JSDate :=
  match year, month, day with
  | Num y, Num m, Num d =>
      TimeClip (MakeDay (MakeFullYear (trunc y)) (trunc m) (trunc d) * msPerDay)
  | _, _, _ => InvalidDate
  end.

End Date.
Export Date.

(* ================================================================= *)
(** ** The receipt parsers *)

Module Parsers.

Definition ch (a : ascii) : char := N_of_ascii a.
Arguments ch a%_char.

Definition flags_none : flags := {| ignoreCase := false; dotAll := false |}.
Definition flags_i : flags := {| ignoreCase := true; dotAll := false |}.
Definition flags_is : flags := {| ignoreCase := true; dotAll := true |}.

Definition digit_or_comma (c : char) : bool :=
  (is_digit c || char_eqb c (ch ","))%bool.

(** The pattern of the fare: [/R\$\s*(G)/i], its one group [G] being
    [[0-9,]+\.?[0-9]*]. *)
Definition value_re : RegExp :=
  {| pattern :=
       seqs [Chr (ch "R"); Chr (ch "$"); star (Cls is_space);
             Group 1 (seqs [plus (Cls digit_or_comma); opt (Chr (ch "."));
                            star (Cls is_digit)])];
     flag := flags_i |}.

(** [/(?:De|From):\s*(.+?)\s*(?:Para|To):\s*(.+?)(?:\n|$)/is] *)
Definition uber_route_re : RegExp :=
  {| pattern :=
       seqs [Alt (word (lit "De")) (word (lit "From")); Chr (ch ":");
             star (Cls is_space); Group 1 (lazy_plus Dot);
             star (Cls is_space);
             Alt (word (lit "Para")) (word (lit "To")); Chr (ch ":");
             star (Cls is_space); Group 2 (lazy_plus Dot);
             Alt (Chr 10%N) Eos];
     flag := flags_is |}.

(** [/(\d{1,2})\s+de\s+(\w+)\s+de\s+(\d{4})/i] *)
Definition uber_date_re : RegExp :=
  {| pattern :=
       seqs [Group 1 (Repeat (Cls is_digit) 1 (Some 2%nat) true);
             plus (Cls is_space); word (lit "de"); plus (Cls is_space);
             Group 2 (plus (Cls is_word));
             plus (Cls is_space); word (lit "de"); plus (Cls is_space);
             Group 3 (Repeat (Cls is_digit) 4 (Some 4%nat) true)];
     flag := flags_i |}.

(** [/(?:Origem|Partida):\s*(.+?)(?:\n|$)/i] *)
Definition origin99_re : RegExp :=
  {| pattern :=
       seqs [Alt (word (lit "Origem")) (word (lit "Partida")); Chr (ch ":");
             star (Cls is_space); Group 1 (lazy_plus Dot);
             Alt (Chr 10%N) Eos];
     flag := flags_i |}.

(** [/(?:Destino|Chegada):\s*(.+?)(?:\n|$)/i] *)
Definition dest99_re : RegExp :=
  {| pattern :=
       seqs [Alt (word (lit "Destino")) (word (lit "Chegada")); Chr (ch ":");
             star (Cls is_space); Group 1 (lazy_plus Dot);
             Alt (Chr 10%N) Eos];
     flag := flags_i |}.

(** [/(\d{1,2})\/(\d{1,2})\/(\d{4})/] *)
Definition date99_re : RegExp :=
  {| pattern :=
       seqs [Group 1 (Repeat (Cls is_digit) 1 (Some 2%nat) true);
             Chr (ch "/");
             Group 2 (Repeat (Cls is_digit) 1 (Some 2%nat) true);
             Chr (ch "/");
             Group 3 (Repeat (Cls is_digit) 4 (Some 4%nat) true)];
     flag := flags_none |}.

(** [m[i]] for a match [m].  The groups that the parsers read take part in
    every match of their pattern (see [value_capture_alphabet],
    [uber_date_captures], [date99_captures_digits], [route_groups_bound]),
    so the empty string of the last case is never read. *)
Definition capture (i : nat) (m : caps) : jsstring :=
  match group i m with
  | Some s => s
  | None => []
  end.

(** [a || b] on two match results. *)
Definition or_match (a b : option caps) : option caps :=
  match a with
  | Some m => Some m
  | None => b
  end.

(** The own properties of the [months] object of [parseUberReceipt].  The
    sixth code unit list is ['março'], whose [ç] is code unit 231. *)
Definition months_table : list (jsstring * Z) :=
  [ (lit "janeiro", 0%Z); (lit "fevereiro", 1%Z);
    (lit "mar" ++ [231%N] ++ lit "o", 2%Z); (lit "abril", 3%Z);
    (lit "maio", 4%Z); (lit "junho", 5%Z); (lit "julho", 6%Z);
    (lit "agosto", 7%Z); (lit "setembro", 8%Z); (lit "outubro", 9%Z);
    (lit "novembro", 10%Z); (lit "dezembro", 11%Z) ].

Fixpoint assoc (k : jsstring) (t : list (jsstring * Z)) : option Z :=
  match t with
  | [] => None
  | (k', v) :: t' => if str_eqb k k' then Some v else assoc k t'
  end.

Definition months (k : jsstring) : option Z := assoc k months_table.

(** ToNumber of [months[k]], as the Date constructor takes it.  A missing
    key reads [undefined]; the keys ['constructor'] and ['__proto__'] read
    an inherited function and object; all three convert to NaN. *)
Definition month_number (k : jsstring) : JSNum :=
  match months k with
  | Some i => Num (inject_Z i)
  | None => NaN
  end.

(** The record under construction; a field that was never assigned is
    [None]. *)
Record Ride : Type := {
  platform : jsstring;
  value : option JSNum;
  origin : option jsstring;
  destination : option jsstring;
  datetime : option JSDate;
  raw_email : option jsstring
}.

(** [ride.value ? ride : null] *)
Definition value_truthy (v : option JSNum) : bool :=
  match v with
  | Some n => num_truthy n
  | None => false
  end.

Definition extract_value (text html : jsstring) : option JSNum :=
  let valueMatch := or_match (str_match text value_re)
                             (str_match html value_re) in
  option_map
    (fun m => parseFloat (replace_first (ch ",") (ch ".") (capture 1 m)))
    valueMatch.

Definition parseUberReceipt (text html : jsstring) : option Ride :=
  let v := extract_value text html in
  let routeMatch := str_match text uber_route_re in
  let dateMatch := str_match text uber_date_re in
  let ride :=
    {| platform := lit "uber";
       value := v;
       origin := option_map (fun m => trim (capture 1 m)) routeMatch;
       destination := option_map (fun m => trim (capture 2 m)) routeMatch;
       datetime :=
         option_map
           (fun m =>
              let month := month_number (toLowerCase (capture 2 m)) in
              new_Date (ToNumber (capture 3 m)) month (ToNumber (capture 1 m)))
           dateMatch;
       raw_email := None |} in
  if value_truthy (value ride) then Some ride else None.

Definition parse99Receipt (text html : jsstring) : option Ride :=
  let v := extract_value text html in
  let originMatch := str_match text origin99_re in
  let destMatch := str_match text dest99_re in
  let dateMatch := str_match text date99_re in
  let ride :=
    {| platform := lit "99";
       value := v;
       origin := option_map (fun m => trim (capture 1 m)) originMatch;
       destination := option_map (fun m => trim (capture 1 m)) destMatch;
       datetime :=
         option_map
           (fun m =>
              new_Date (ToNumber (capture 3 m))
                       (minus_one (ToNumber (capture 2 m)))
                       (ToNumber (capture 1 m)))
           dateMatch;
       raw_email := None |} in
  if value_truthy (value ride) then Some ride else None.

End Parsers.
Export Parsers.

(* ================================================================= *)
(** ** The SQLite store *)

Module Store.

Local Open Scope Z_scope.

Record User : Type := {
  user_id : Z;
  email : jsstring;
  unique_email : jsstring
}.

(** A stored timestamp: the number bound from a Date object, or what the
    column keeps of a text that a client sent.  The column is declared
    DATETIME and has NUMERIC affinity, so that [DateText s] is the text [s]
    or, when [s] spells a number, that number; which of the two is not
    told here, and nothing below depends on it. *)
Inductive DateCell : Type :=
| DateReal (t : Z)
| DateText (s : jsstring).

(** A row of [rides]; a cell that holds NULL is [None]. *)
Record RideRow : Type := {
  row_id : Z;
  row_user : Z;
  row_platform : option jsstring;
  row_value : option Q;
  row_origin : option jsstring;
  row_destination : option jsstring;
  row_datetime : option DateCell;
  row_raw : option jsstring
}.

(** The database: both tables, and the AUTOINCREMENT counter of [rides].
    A statement fails only by a constraint of the schema; failures of the
    database itself are not modelled. *)
Record DB : Type := {
  users : list User;
  rides : list RideRow;
  ride_seq : Z
}.

(** How the driver binds a number and a Date object: an unassigned field
    ([undefined]) stays unbound, which is NULL; a NaN double is stored as
    NULL, any other double, an infinity too, as it is; a Date is bound by
    its time value. *)
Definition bind_num (v : option JSNum) : option Q :=
  match v with
  | Some (Num q) => Some q
  | Some NaN => None
  | None => None
  end.

Definition bind_date (d : JSDate) : option DateCell :=
  match d with
  | ValidDate t => Some (DateReal t)
  | InvalidDate => None
  end.

Definition is_null {A : Type} (c : option A) : bool :=
  match c with Some _ => false | None => true end.

(** [SELECT id FROM users WHERE unique_email = ?]; an unbound parameter is
    NULL and equals nothing. *)
Definition user_by_unique_email (db : DB) (p : option jsstring) : option User :=
  match p with
  | Some s => find (fun u => str_eqb (unique_email u) s) (users db)
  | None => None
  end.

(** [SELECT ... FROM users WHERE email = ? OR unique_email = ?] *)
Definition user_by_any_email (db : DB) (p : option jsstring) : option User :=
  match p with
  | Some s =>
      find (fun u => (str_eqb (email u) s || str_eqb (unique_email u) s)%bool)
           (users db)
  | None => None
  end.

(** [INSERT INTO rides (...)]: the NOT NULL columns of the schema are
    checked, the first one that fails is reported; otherwise the row gets
    the next id, which is [this.lastID]. *)
Definition insert_ride (db : DB) (uid : Z) (p : option jsstring)
    (v : option Q) (o d : option jsstring) (t : option DateCell)
    (raw : option jsstring) : (string + Z) * DB :=
  if is_null p then
    (inl "SQLITE_CONSTRAINT: NOT NULL constraint failed: rides.platform"%string, db)
  else if is_null v then
    (inl "SQLITE_CONSTRAINT: NOT NULL constraint failed: rides.value"%string, db)
  else if is_null t then
    (inl "SQLITE_CONSTRAINT: NOT NULL constraint failed: rides.datetime"%string, db)
  else
    let id := ride_seq db + 1 in
    let row := {| row_id := id; row_user := uid; row_platform := p;
                  row_value := v; row_origin := o; row_destination := d;
                  row_datetime := t; row_raw := raw |} in
    (inr id, {| users := users db; rides := rides db ++ [row];
                ride_seq := id |}).

End Store.
Export Store.

(* ================================================================= *)
(** ** The extraction pipeline and the request handlers *)

Module Api.

Local Open Scope Z_scope.

(** The mail object of the parser's [end] event, by the four values that
    [processEmail] reads: [mail.from?.text], [mail.subject], [mail.text],
    [mail.html]; [None] is a value that is missing. *)
Record Mail : Type := {
  mail_from : option jsstring;
  mail_subject : option jsstring;
  mail_text : option jsstring;
  mail_html : option jsstring
}.

(** What [processEmail] did, in order. *)
Inductive Event : Type :=
| ParserCalled (p : jsstring)
| UserLookup
| RideInsert.

(** How the promise settles: resolved with [{...ride, id}] or rejected with
    an Error of the given message. *)
Inductive Outcome : Type :=
| Resolved (r : Ride) (id : Z)
| Rejected (message : string).

Record Run : Type := {
  outcome : Outcome;
  db_after : DB;
  trace : list Event
}.

Definition msg_user_not_found : string := "Usuário não encontrado".
Definition msg_no_extraction : string :=
  "Não foi possível extrair informações do email".

(** Lines 117-129: the four values of the mail, the detection of the
    platform and the call of its parser. *)
Definition detect_and_parse (mail : Mail) : option Ride * list Event :=
  let from := or_empty (option_map toLowerCase (mail_from mail)) in
  let subject := or_empty (option_map toLowerCase (mail_subject mail)) in
  let text := or_empty (mail_text mail) in
  let html := or_empty (mail_html mail) in
  if (includes from (lit "uber") || includes subject (lit "uber"))%bool then
    (parseUberReceipt text html, [ParserCalled (lit "uber")])
  else if (includes from (lit "99") || includes subject (lit "99"))%bool then
    (parse99Receipt text html, [ParserCalled (lit "99")])
  else (None, []).

Definition with_raw_email (r : Ride) (raw : jsstring) : Ride :=
  {| platform := platform r; value := value r; origin := origin r;
     destination := destination r; datetime := datetime r;
     raw_email := Some raw |}.

(** [ride.datetime || new Date()]: a Date object is truthy, the Invalid
    Date too. *)
Definition datetime_or_now (r : Ride) (now : Z) : JSDate :=
  match datetime r with
  | Some d => d
  | None => ValidDate now
  end.

(** [processEmail(rawEmail, userEmail)], from the [end] event of the mail
    parser on; [now] is the time value of [new Date()]. *)
Definition processEmail (mail : Mail) (rawEmail : jsstring)
    (userEmail : option jsstring) (now : Z) (db : DB) : Run :=
  let (parsed, called) := detect_and_parse mail in
  match parsed with
  | Some ride0 =>
      let ride := with_raw_email ride0 rawEmail in
      match user_by_unique_email db userEmail with
      | None =>
          {| outcome := Rejected msg_user_not_found; db_after := db;
             trace := called ++ [UserLookup] |}
      | Some user =>
          match insert_ride db (user_id user) (Some (platform ride))
                  (bind_num (value ride)) (origin ride) (destination ride)
                  (bind_date (datetime_or_now ride now)) (raw_email ride) with
          | (inl err, db') =>
              {| outcome := Rejected err; db_after := db';
                 trace := called ++ [UserLookup; RideInsert] |}
          | (inr id, db') =>
              {| outcome := Resolved ride id; db_after := db';
                 trace := called ++ [UserLookup; RideInsert] |}
          end
      end
  | None =>
      {| outcome := Rejected msg_no_extraction; db_after := db;
         trace := called |}
  end.

(** The answers of the handlers: status and JSON body. *)
Inductive Response : Type :=
| EmailAccepted (r : Ride) (id : Z)          (* 200 {success: true, ride} *)
| Failure (status : Z) (error : string)      (* status, {error} *)
| RideCreated (id : Z) (platform : option jsstring) (value : option Q)
    (origin destination datetime : option jsstring)
                                             (* 200 {id, platform, ...} *)
| Deleted (changes : nat)                    (* 200 {success: true, deleted} *)
| Stats (totalSpent : Q) (totalRides : nat) (averageRide : Q)
        (monthSpent : Q) (monthRides : nat).

(** [POST /api/webhook/email]: [toEmail] is the header [x-to-email] or else
    the query parameter [to]. *)
Definition to_email (header_to query_to : option jsstring)
    : option jsstring :=
  match header_to with
  | Some (c :: s) => Some (c :: s)
  | _ => query_to
  end.

Definition webhook_email (mail : Mail) (rawEmail : jsstring)
    (header_to query_to : option jsstring) (now : Z) (db : DB)
    : Response * DB :=
  let toEmail := to_email header_to query_to in
  let run := processEmail mail rawEmail toEmail now db in
  match outcome run with
  | Resolved r id => (EmailAccepted r id, db_after run)
  | Rejected message => (Failure 400 message, db_after run)
  end.

(** The body of [POST /api/rides], on the requests of a client that sends
    the fields with the types of the API: strings, and a number for
    [value]; a field that is missing or null is [None].  The handler checks
    no type; a body with a text for [value], or with a number for
    [datetime], is outside these requests. *)
Record RideBody : Type := {
  body_userEmail : option jsstring;
  body_platform : option jsstring;
  body_value : option Q;
  body_origin : option jsstring;
  body_destination : option jsstring;
  body_datetime : option jsstring
}.

(** [POST /api/rides].  [datetime || new Date()]: a missing or empty text
    gives way to the current time; any other text is bound as it is, and
    the cell is what the column makes of it (see [DateCell]). *)
Definition add_ride (b : RideBody) (now : Z) (db : DB) : Response * DB :=
  match user_by_any_email db (body_userEmail b) with
  | None => (Failure 404 msg_user_not_found, db)
  | Some user =>
      let t :=
        match body_datetime b with
        | Some (c :: s) => Some (DateText (c :: s))
        | _ => bind_date (ValidDate now)
        end in
      match insert_ride db (user_id user) (body_platform b) (body_value b)
              (body_origin b) (body_destination b) t None with
      | (inl err, db') => (Failure 500 err, db')
      | (inr id, db') =>
          (RideCreated id (body_platform b) (body_value b) (body_origin b)
             (body_destination b) (body_datetime b), db')
      end
  end.

Section Handlers.

(** [id = ?] of SQLite between the INTEGER key of a row and the text of the
    route parameter. *)
Variable sql_id_eq : Z -> jsstring -> bool.

(** [getMonth()] and [getFullYear()] of [new Date(r.datetime)] for the cell
    read from a row, [None] when that is the Invalid Date. *)
Variable month_and_year : option DateCell -> option (Z * Z).

(** [DELETE /api/rides/:id]; [this.changes] is the number of rows removed. *)
Definition delete_ride (id : jsstring) (db : DB) : Response * DB :=
  let kept := filter (fun r => negb (sql_id_eq (row_id r) id)) (rides db) in
  (Deleted (length (rides db) - length kept)%nat,
   {| users := users db; rides := kept; ride_seq := ride_seq db |}).

(** [r.value] read back from a row, in a sum: NULL adds nothing.  The
    rows are those that hold a number in [value] (see [RideBody]); each
    addition and the division are rounded to a double.  The NaN of two
    opposite infinities is not represented. *)
Definition value_of (r : RideRow) : Q :=
  match row_value r with
  | Some q => q
  | None => 0%Q
  end.

Definition sum_values (rs : list RideRow) : Q :=
  fold_left (fun sum r => round_double (sum + value_of r)%Q) rs 0%Q.

Definition in_month (now_month now_year : Z) (r : RideRow) : bool :=
  match month_and_year (row_datetime r) with
  | Some (m, y) => ((m =? now_month) && (y =? now_year))%bool
  | None => false
  end.

(** The aggregation of [GET /api/stats/:userEmail] over the rows read. *)
Definition aggregate (now_month now_year : Z) (rs : list RideRow) : Response :=
  let total := sum_values rs in
  let count := length rs in
  let avg := if (0 <? count)%nat
             then round_double (total / inject_Z (Z.of_nat count))%Q
             else 0%Q in
  let monthRides := filter (in_month now_month now_year) rs in
  Stats total count avg (sum_values monthRides) (length monthRides).

(** [GET /api/stats/:userEmail] *)
Definition get_stats (userEmail : jsstring) (now_month now_year : Z)
    (db : DB) : Response :=
  match user_by_any_email db (Some userEmail) with
  | None => Failure 404 msg_user_not_found
  | Some user =>
      aggregate now_month now_year
        (filter (fun r => row_user r =? user_id user) (rides db))
  end.

End Handlers.

End Api.
Export Api.

(* ================================================================= *)
(** ** Users, and the listing of rides *)

Module Accounts.

Local Open Scope N_scope.

(** One hexadecimal digit, in lower case. *)
Definition hex_digit (n : N) : char :=
  if N.ltb n 10 then 48 + n else 87 + n.

Definition hex_byte (b : Byte.byte) : jsstring :=
  [hex_digit (Byte.to_N b / 16); hex_digit (Byte.to_N b mod 16)].

(** [buffer.toString('hex')] *)
Definition to_hex (bs : list Byte.byte) : jsstring := flat_map hex_byte bs.

(** [generateUniqueEmail()], as a function of the bytes that
    [crypto.randomBytes(6)] draws. *)
Definition generateUniqueEmail (randomBytes : list Byte.byte) : jsstring :=
  lit "corridas-" ++ to_hex randomBytes ++ lit "@ridetrack.app".

Definition msg_email_taken : string := "Email já cadastrado".

(** The answers of the two handlers of users.  The column [created_at],
    which the database fills from its clock, is not part of a row here. *)
Inductive UserResponse : Type :=
| UserCreated (id : Z) (email uniqueEmail message : jsstring)
| UserFound (u : User)
| UserFailure (status : Z) (error : string).

(** The id that AUTOINCREMENT gives to the next user: one more than the
    largest id in use (no statement of the source deletes a user, so the
    largest id in use is the largest ever given). *)
Definition next_user_id (us : list User) : Z :=
  (fold_right Z.max 0 (List.map user_id us) + 1)%Z.

(** [INSERT INTO users (email, unique_email) VALUES (?, ?)]: both columns
    are NOT NULL and each is UNIQUE; [None] is a failed statement. *)
Definition insert_user (db : DB) (e : option jsstring) (ue : jsstring)
    : option Z * DB :=
  match e with
  | None => (None, db)
  | Some e' =>
      if (existsb (fun u => str_eqb (email u) e') (users db)
          || existsb (fun u => str_eqb (unique_email u) ue) (users db))%bool
      then (None, db)
      else
        let id := next_user_id (users db) in
        (Some id,
         {| users := users db
                     ++ [{| user_id := id; email := e'; unique_email := ue |}];
            rides := rides db; ride_seq := ride_seq db |})
  end.

(** [POST /api/users]; [e] is the field [email] of the body, [None] when it
    is missing or null.  Any failure of the statement is answered with
    status 400 and the one message. *)
Definition create_user (e : option jsstring) (randomBytes : list Byte.byte)
    (db : DB) : UserResponse * DB :=
  let uniqueEmail := generateUniqueEmail randomBytes in
  match insert_user db e uniqueEmail, e with
  | (Some id, db'), Some e' =>
      (UserCreated id e' uniqueEmail
         (lit "Configure seus apps para enviar recibos para: " ++ uniqueEmail),
       db')
  | (_, db'), _ => (UserFailure 400 msg_email_taken, db')
  end.

(** [GET /api/users/:email] *)
Definition get_user (p : jsstring) (db : DB) : UserResponse :=
  match user_by_any_email db (Some p) with
  | None => UserFailure 404 msg_user_not_found
  | Some u => UserFound u
  end.

Inductive RidesResponse : Type :=
| RideList (rows : list RideRow)
| RidesFailure (status : Z) (error : string).

Section Listing.

(** The order of SQLite between two values of the column [datetime]:
    [comes_first a b] when a row holding [a] may come before a row holding
    [b] under [ORDER BY datetime DESC]. *)
Variable comes_first : option DateCell -> option DateCell -> bool.

Fixpoint insert_row (r : RideRow) (l : list RideRow) : list RideRow :=
  match l with
  | [] => [r]
  | r' :: l' =>
      if comes_first (row_datetime r) (row_datetime r') then r :: l
      else r' :: insert_row r l'
  end.

(** [ORDER BY datetime DESC].  Among rows that the order does not tell
    apart SQLite promises no order; the one taken here is that of the
    insertions. *)
Definition order_by_datetime_desc (l : list RideRow) : list RideRow :=
  fold_right insert_row [] l.

(** [GET /api/rides/:userEmail] *)
Definition list_rides (userEmail : jsstring) (db : DB) : RidesResponse :=
  match user_by_any_email db (Some userEmail) with
  | None => RidesFailure 404 msg_user_not_found
  | Some user =>
      RideList
        (order_by_datetime_desc
           (filter (fun r => (row_user r =? user_id user)%Z) (rides db)))
  end.

End Listing.

End Accounts.
Export Accounts.

(* ================================================================= *)
(** ** Notions used by the statements *)

Module Props.

(** What a pattern can match, as a relation: [matches f r x c y c'] when [r]
    can consume a prefix of [x], leaving [y], and turn the captures [c] into
    [c']. *)
Inductive matches (f : flags)
  : regex -> jsstring -> caps -> jsstring -> caps -> Prop :=
| M_chr a h y c :
    chr_matches f a h = true -> matches f (Chr a) (h :: y) c y c
| M_cls p h y c :
    cls_matches f p h = true -> matches f (Cls p) (h :: y) c y c
| M_dot h y c :
    dot_matches f h = true -> matches f Dot (h :: y) c y c
| M_eos c :
    matches f Eos [] c [] c
| M_seq r1 r2 x c y c1 z c2 :
    matches f r1 x c y c1 -> matches f r2 y c1 z c2 ->
    matches f (Seq r1 r2) x c z c2
| M_alt_l r1 r2 x c y c' :
    matches f r1 x c y c' -> matches f (Alt r1 r2) x c y c'
| M_alt_r r1 r2 x c y c' :
    matches f r2 x c y c' -> matches f (Alt r1 r2) x c y c'
| M_group i r x c y c' :
    matches f r x c y c' ->
    matches f (Group i r) x c y ((i, firstn (length x - length y) x) :: c')
| M_stop r min max g x c :
    min = 0%nat \/ max = Some 0%nat ->
    matches f (Repeat r min max g) x c x c
| M_step r min max g x c y c1 z c2 :
    max <> Some 0%nat ->
    matches f r x c y c1 ->
    matches f (Repeat r (Nat.pred min) (option_map Nat.pred max) g) y c1 z c2 ->
    matches f (Repeat r min max g) x c z c2.

(** A matcher that hands to its continuation no more input than it got. *)
Definition forward (m : matcher) : Prop :=
  forall (k1 k2 : cont) x c,
    (forall y cy, (length y <= length x)%nat -> k1 y cy = k2 y cy) ->
    m k1 x c = m k2 x c.

(** The continuation that [RepeatMatcher] hands to the atom at fuel
    [S fuel]. *)
Definition rep_next (fuel : nat) (m : matcher) (min : nat) (max : option nat)
    (g : bool) (k : cont) (x : jsstring) : cont :=
  fun y cy =>
    if (Nat.eqb min 0 && Nat.eqb (length y) (length x))%bool then None
    else RepeatMatcher fuel m (Nat.pred min) (option_map Nat.pred max) g k y cy.

(** The atoms that take exactly one character, and the characters they
    take. *)
Definition atom_ok (f : flags) (r : regex) (h : char) : bool :=
  match r with
  | Chr a => chr_matches f a h
  | Cls p => cls_matches f p h
  | Dot => dot_matches f h
  | _ => false
  end.

Definition is_atom (r : regex) : bool :=
  match r with
  | Chr _ | Cls _ | Dot => true
  | _ => false
  end.

Definition all_digits (s : jsstring) : Prop :=
  Forall (fun h => is_digit h = true) s.

(** The characters of a captured fare. *)
Definition fare_char (h : char) : bool :=
  (is_digit h || char_eqb h (ch ",") || char_eqb h (ch "."))%bool.

(** [s] is empty or starts with a character outside [p]. *)
Definition stops (p : char -> bool) (s : jsstring) : Prop :=
  match s with
  | [] => True
  | h :: _ => p h = false
  end.




(** The sender or the subject of the mail, in lower case, contains the
    name [p]. *)
Definition mentions (mail : Mail) (p : jsstring) : bool :=
  (includes (or_empty (option_map toLowerCase (mail_from mail))) p
   || includes (or_empty (option_map toLowerCase (mail_subject mail))) p)%bool.

(** A stored ride has a platform and a value. *)
Definition row_present (r : RideRow) : Prop :=
  row_platform r <> None /\ row_value r <> None.

Definition store_present (db : DB) : Prop := Forall row_present (rides db).

(** What the extraction pipeline stores: one of the two tags and a positive
    fare. *)
Definition row_of_pipeline (r : RideRow) : Prop :=
  (row_platform r = Some (lit "uber") \/ row_platform r = Some (lit "99")) /\
  exists q, row_value r = Some q /\ (0 < q)%Q.

(** The four ways in which [processEmail] settles. *)
Inductive settles (mail : Mail) (raw : jsstring) (u : option jsstring)
    (now : Z) (db : DB) : Run -> Prop :=
| S_no_extraction called :
    detect_and_parse mail = (None, called) ->
    settles mail raw u now db
      {| outcome := Rejected msg_no_extraction; db_after := db;
         trace := called |}
| S_no_user ride called :
    detect_and_parse mail = (Some ride, called) ->
    user_by_unique_email db u = None ->
    settles mail raw u now db
      {| outcome := Rejected msg_user_not_found; db_after := db;
         trace := called ++ [UserLookup] |}
| S_store_error ride called user err :
    detect_and_parse mail = (Some ride, called) ->
    user_by_unique_email db u = Some user ->
    settles mail raw u now db
      {| outcome := Rejected err; db_after := db;
         trace := called ++ [UserLookup; RideInsert] |}
| S_stored ride called user row :
    detect_and_parse mail = (Some ride, called) ->
    user_by_unique_email db u = Some user ->
    row_id row = (ride_seq db + 1)%Z ->
    row_user row = user_id user ->
    row_platform row = Some (platform ride) ->
    row_value row = bind_num (value ride) ->
    row_raw row = Some raw ->
    settles mail raw u now db
      {| outcome := Resolved (with_raw_email ride raw) (row_id row);
         db_after := {| users := users db; rides := rides db ++ [row];
                        ride_seq := row_id row |};
         trace := called ++ [UserLookup; RideInsert] |}.

(** Receipts and requests on which the statements are tried. *)
Definition text_marco : jsstring :=
  lit "Total R$ 45,90 em 5 de marco de 2024".
Definition text_out_of_range : jsstring :=
  lit "Total R$ 10,00 em 45/13/2024".
Definition text_zero_fare : jsstring := lit "Total: R$ 0,00".

Definition mail_of (from subject text : string) : Mail :=
  {| mail_from := Some (lit from); mail_subject := Some (lit subject);
     mail_text := Some (lit text); mail_html := None |}.

Definition mail_unknown : Mail :=
  mail_of "news@example.com" "Sua fatura" "Total: R$ 45,90".
Definition mail_uber_no_fare : Mail :=
  mail_of "noreply@uber.com" "Sua viagem" "Obrigado por viajar".
Definition mail_uber_fare : Mail :=
  mail_of "noreply@uber.com" "Sua viagem" "Total: R$ 45,90".


(** The two receipts of the scenarios of the specification, and a receipt
    dated in March. *)
Definition mail_scenario_uber : Mail :=
  {| mail_from := Some (lit "noreply@uber.com");
     mail_subject := Some (lit "Sua viagem");
     mail_text := Some (lit "De: Av. Paulista, 1000 Para: Aeroporto"
                        ++ [10%N] ++ lit "Total R$ 45,90");
     mail_html := None |}.
Definition mail_scenario_99 : Mail :=
  {| mail_from := Some (lit "recibos@example.com");
     mail_subject := Some (lit "Recibo da sua corrida 99");
     mail_text := Some (lit "Origem: Centro" ++ [10%N]
                        ++ lit "Destino: Zona Sul" ++ [10%N]
                        ++ lit "Valor: R$ 23.50");
     mail_html := None |}.
Definition text_march : jsstring :=
  lit "Total R$ 45,90 em 15 de mar" ++ [231%N] ++ lit "o de 2024".

Definition alice_address : jsstring :=
  lit "corridas-0a1b2c3d4e5f@ridetrack.app".
Definition alice : User :=
  {| user_id := 1%Z; email := lit "alice@example.com";
     unique_email := alice_address |}.
Definition db_alice : DB :=
  {| users := [alice]; rides := []; ride_seq := 0%Z |}.
Definition raw_bytes : jsstring := lit "From: noreply@uber.com".

Definition row_one : RideRow :=
  {| row_id := 1%Z; row_user := 1%Z; row_platform := Some (lit "uber");
     row_value := Some (4590 # 100)%Q; row_origin := None;
     row_destination := None; row_datetime := Some (DateReal 0);
     row_raw := None |}.
Definition db_one_ride : DB :=
  {| users := [alice]; rides := [row_one]; ride_seq := 1%Z |}.

(** A manual entry with a negative value. *)
Definition body_negative : RideBody :=
  {| body_userEmail := Some (lit "alice@example.com");
     body_platform := Some (lit "uber"); body_value := Some (-5 # 1)%Q;
     body_origin := None; body_destination := None;
     body_datetime := None |}.

(** The comparison of a row id with the text of a route parameter, on the
    texts that are strings of digits. *)
Definition id_eq_digits (id : Z) (p : jsstring) : bool :=
  match p with
  | [] => false
  | _ => (forallb is_digit p && (digits_val p =? id)%Z)%bool
  end.

End Props.
Export Props.

(* ================================================================= *)
(** ** Notions about the store, the users and the listing *)

Module StoreNotions.

(** A string without any [$]. *)
Definition no_dollar (s : jsstring) : Prop :=
  Forall (fun h => char_eqb h (ch "$") = false) s.

(** The row that [processEmail] inserts for a candidate, and the store with
    one more row. *)
Definition stored_row (db : DB) (user : User) (ride : Ride) (raw : jsstring)
    (t : DateCell) : RideRow :=
  {| row_id := (ride_seq db + 1)%Z; row_user := user_id user;
     row_platform := Some (platform ride);
     row_value := bind_num (value ride); row_origin := origin ride;
     row_destination := destination ride; row_datetime := Some t;
     row_raw := Some raw |}.

Definition with_row (db : DB) (row : RideRow) : DB :=
  {| users := users db; rides := rides db ++ [row]; ride_seq := row_id row |}.

(** The ids of the rides are distinct and none is above the counter. *)
Definition rides_wf (db : DB) : Prop :=
  NoDup (List.map row_id (rides db)) /\
  Forall (fun r => (row_id r <= ride_seq db)%Z) (rides db).

Definition is_hex_char (h : char) : bool :=
  (is_digit h || in_range 97%N 102%N h)%bool.

Definition new_user (db : DB) (e ue : jsstring) : User :=
  {| user_id := next_user_id (users db); email := e; unique_email := ue |}.

Definition with_user (db : DB) (u : User) : DB :=
  {| users := users db ++ [u]; rides := rides db; ride_seq := ride_seq db |}.

(** No two users share an email, an ingestion address or an id. *)
Definition users_wf (db : DB) : Prop :=
  NoDup (List.map email (users db)) /\
  NoDup (List.map unique_email (users db)) /\
  NoDup (List.map user_id (users db)).

(** Row [a] may come before row [b] in the listing. *)
Definition before (comes_first : option DateCell -> option DateCell -> bool)
    (a b : RideRow) : Prop :=
  comes_first (row_datetime a) (row_datetime b) = true.

(** An order of the timestamps on which the statements are tried: a number
    after a text, two numbers by size, two texts as they come. *)
Definition newest_first (a b : option DateCell) : bool :=
  match a, b with
  | Some (DateReal x), Some (DateReal y) => (y <=? x)%Z
  | Some (DateReal _), Some (DateText _) => false
  | None, Some _ => false
  | _, _ => true
  end.


Definition no_ride : Ride :=
  {| platform := []; value := None; origin := None; destination := None;
     datetime := None; raw_email := None |}.

Definition ride_uber_fare : Ride :=
  {| platform := lit "uber"; value := Some (Num (round_double (4590 # 100)));
     origin := None; destination := None; datetime := None;
     raw_email := None |}.



Definition ride_scenario_uber : Ride :=
  Eval vm_compute in
    match parseUberReceipt (or_empty (mail_text mail_scenario_uber)) [] with
    | Some r => r
    | None => no_ride
    end.

(** A receipt that names both platforms. *)
Definition mail_both : Mail :=
  mail_of "noreply@uber.com" "Recibo 99" "Total: R$ 45,90".

Definition six_bytes : list Byte.byte :=
  [Byte.x0a; Byte.x1b; Byte.x2c; Byte.x3d; Byte.x4e; Byte.x5f].

Definition other_bytes : list Byte.byte :=
  [Byte.xa0; Byte.xb1; Byte.xc2; Byte.xd3; Byte.xe4; Byte.xf5].

(** A reading of the timestamps that knows the month of January 1970
    only. *)
Definition january_1970 (c : option DateCell) : option (Z * Z) :=
  match c with
  | Some (DateReal t) =>
      if ((0 <=? t) && (t <? 31 * 86400000))%Z%bool then Some (0, 1970)%Z
      else None
  | _ => None
  end.

Definition db_empty : DB := {| users := []; rides := []; ride_seq := 0%Z |}.

Definition bob : User :=
  {| user_id := 2%Z; email := lit "bob@example.com";
     unique_email := lit "corridas-a0b1c2d3e4f5@ridetrack.app" |}.

Definition row_two : RideRow :=
  {| row_id := 2%Z; row_user := 1%Z; row_platform := Some (lit "99");
     row_value := Some (2350 # 100)%Q; row_origin := None;
     row_destination := None; row_datetime := Some (DateReal 1700000000000);
     row_raw := None |}.

Definition db_two_users : DB :=
  {| users := [alice; bob]; rides := [row_one; row_two]; ride_seq := 2%Z |}.

Definition body_alice : RideBody :=
  {| body_userEmail := Some (lit "alice@example.com");
     body_platform := Some (lit "uber"); body_value := Some (10 # 1)%Q;
     body_origin := Some (lit "Centro"); body_destination := None;
     body_datetime := Some (lit "2024-01-15T10:00:00Z") |}.

Definition body_bob : RideBody :=
  {| body_userEmail := Some (lit "bob@example.com");
     body_platform := Some (lit "99"); body_value := Some (20 # 1)%Q;
     body_origin := None; body_destination := None;
     body_datetime := None |}.

End StoreNotions.
Export StoreNotions.

(* ================================================================= *)
(** ** The matcher: fuel and soundness *)

Lemma orelse_some (a : option caps) (b : unit -> option caps) z :
  orelse a b = Some z -> a = Some z \/ (a = None /\ b tt = Some z).
Proof.
  destruct a; simpl; intros H; [left | right]; auto.
Qed.

Lemma one_forward (ok : char -> bool) : forward (one ok).
Proof.
  intros k1 k2 x c H. unfold one.
  destruct x as [|h y]; trivial.
  destruct (ok h); trivial. apply H. simpl. lia.
Qed.

Lemma RepeatMatcher_S fuel (m : matcher) min max g k x c :
  RepeatMatcher (S fuel) m min max g k x c =
  match max with
  | Some O => k x c
  | _ =>
    if negb (Nat.eqb min 0) then m (rep_next fuel m min max g k x) x c
    else if g then orelse (m (rep_next fuel m min max g k x) x c)
                          (fun _ => k x c)
    else orelse (k x c) (fun _ => m (rep_next fuel m min max g k x) x c)
  end.
Proof.
  destruct max as [[|n]|]; reflexivity.
Qed.


Lemma RepeatMatcher_forward (m : matcher) :
  forward m ->
  forall fuel min max g, forward (fun k => RepeatMatcher fuel m min max g k).
Proof.
  intros Hm fuel. induction fuel as [|fuel IH]; intros min max g k1 k2 x c H.
  - simpl. destruct max as [[|n]|]; trivial. apply H; lia.
  - rewrite !RepeatMatcher_S.
    assert (E : m (rep_next fuel m min max g k1 x) x c
              = m (rep_next fuel m min max g k2 x) x c).
    { apply Hm. intros y cy Hy. unfold rep_next.
      destruct (Nat.eqb min 0 && Nat.eqb (length y) (length x))%bool; trivial.
      apply IH. intros y' cy' Hy'. apply H. lia. }
    rewrite E, (H x c) by lia. reflexivity.
Qed.

Lemma compile_forward (f : flags) (r : regex) : forward (compile f r).
Proof.
  induction r as [a|p| | |r1 IH1 r2 IH2|r1 IH1 r2 IH2|i r IH|r IH min max g];
    simpl.
  - apply one_forward.
  - apply one_forward.
  - apply one_forward.
  - intros k1 k2 x c H. destruct x; trivial. apply H; lia.
  - intros k1 k2 x c H. apply IH1. intros y cy Hy.
    apply IH2. intros z cz Hz. apply H. lia.
  - intros k1 k2 x c H. rewrite (IH1 k1 k2 x c H), (IH2 k1 k2 x c H).
    reflexivity.
  - intros k1 k2 x c H. apply IH. intros y cy Hy. apply H. exact Hy.
  - intros k1 k2 x c H.
    apply (RepeatMatcher_forward IH (S (min + length x)) min max g k1 k2 x c H).
Qed.

(** Fuel above [min + length x] is all the same: the bound that [compile]
    passes is never the reason of a failure. *)
Lemma RepeatMatcher_fuel (m : matcher) :
  forward m ->
  forall f1 f2 min max g k x c,
    (min + length x < f1)%nat -> (min + length x < f2)%nat ->
    RepeatMatcher f1 m min max g k x c = RepeatMatcher f2 m min max g k x c.
Proof.
  intros Hm f1. induction f1 as [|f1 IH]; intros f2 min max g k x c H1 H2.
  - lia.
  - destruct f2 as [|f2]; [lia|].
    rewrite !RepeatMatcher_S.
    assert (E : m (rep_next f1 m min max g k x) x c
              = m (rep_next f2 m min max g k x) x c).
    { apply Hm. intros y cy Hy. unfold rep_next.
      destruct (Nat.eqb min 0) eqn:E0; simpl.
      - destruct (Nat.eqb (length y) (length x)) eqn:E1; trivial.
        apply Nat.eqb_eq in E0. apply Nat.eqb_neq in E1.
        apply IH; lia.
      - apply Nat.eqb_neq in E0. apply IH; lia. }
    rewrite E. reflexivity.
Qed.

(** The fuel that [compile] gives to a quantifier can be replaced by any
    larger one. *)
Lemma compile_repeat_fuel (f : flags) (r : regex) min max g k x c fuel :
  (min + length x < fuel)%nat ->
  compile f (Repeat r min max g) k x c
  = RepeatMatcher fuel (compile f r) min max g k x c.
Proof.
  intros H. cbn [compile].
  apply RepeatMatcher_fuel; [apply compile_forward | lia | exact H].
Qed.

Lemma RepeatMatcher_sound (f : flags) (r : regex) :
  (forall k x c z, compile f r k x c = Some z ->
     exists y c', matches f r x c y c' /\ k y c' = Some z) ->
  forall fuel min max g k x c z,
    RepeatMatcher fuel (compile f r) min max g k x c = Some z ->
    exists y c', matches f (Repeat r min max g) x c y c' /\ k y c' = Some z.
Proof.
  intros Hr fuel. induction fuel as [|fuel IH]; intros min max g k x c z H.
  - simpl in H. destruct max as [[|n]|]; try discriminate.
    exists x, c. split; trivial. apply M_stop. now right.
  - rewrite RepeatMatcher_S in H.
    assert (Stop : k x c = Some z -> (min = 0%nat \/ max = Some 0%nat) ->
              exists y c', matches f (Repeat r min max g) x c y c' /\ k y c' = Some z).
    { intros Hk Hs. exists x, c. split; trivial. now apply M_stop. }
    assert (Step : max <> Some 0%nat ->
      compile f r (rep_next fuel (compile f r) min max g k x) x c = Some z ->
      exists y c', matches f (Repeat r min max g) x c y c' /\ k y c' = Some z).
    { intros Hmax Hm. apply Hr in Hm. destruct Hm as (y & c1 & M1 & Hd).
      unfold rep_next in Hd.
      destruct (Nat.eqb min 0 && Nat.eqb (length y) (length x))%bool;
        [discriminate|].
      apply IH in Hd. destruct Hd as (y' & c' & M2 & Hk).
      exists y', c'. split; trivial. eapply M_step; eauto. }
    assert (Go : max <> Some 0%nat ->
      (if negb (Nat.eqb min 0)
       then compile f r (rep_next fuel (compile f r) min max g k x) x c
       else if g
         then orelse (compile f r (rep_next fuel (compile f r) min max g k x) x c)
                     (fun _ => k x c)
         else orelse (k x c)
                     (fun _ => compile f r (rep_next fuel (compile f r) min max g k x) x c))
      = Some z ->
      exists y c', matches f (Repeat r min max g) x c y c' /\ k y c' = Some z).
    { intros Hmax H'. destruct (Nat.eqb min 0) eqn:E0; simpl in H'.
      - apply Nat.eqb_eq in E0.
        destruct g; apply orelse_some in H'; destruct H' as [H'|[_ H']]; auto.
      - auto. }
    destruct max as [[|n]|].
    + apply Stop; auto.
    + apply Go; [discriminate | exact H].
    + apply Go; [discriminate | exact H].
Qed.

(** Every success of the matcher is a match of the pattern. *)
Lemma compile_sound (f : flags) (r : regex) :
  forall k x c z, compile f r k x c = Some z ->
    exists y c', matches f r x c y c' /\ k y c' = Some z.
Proof.
  induction r as [a|p| | |r1 IH1 r2 IH2|r1 IH1 r2 IH2|i r IH|r IH min max g];
    intros k x c z H; [simpl in H ..|].
  - unfold one in H. destruct x as [|h y]; [discriminate|].
    destruct (chr_matches f a h) eqn:E; [|discriminate].
    exists y, c. split; trivial. now constructor.
  - unfold one in H. destruct x as [|h y]; [discriminate|].
    destruct (cls_matches f p h) eqn:E; [|discriminate].
    exists y, c. split; trivial. now constructor.
  - unfold one in H. destruct x as [|h y]; [discriminate|].
    destruct (dot_matches f h) eqn:E; [|discriminate].
    exists y, c. split; trivial. now constructor.
  - destruct x; [|discriminate]. exists [], c. split; trivial. constructor.
  - apply IH1 in H. destruct H as (y & c1 & M1 & H).
    apply IH2 in H. destruct H as (y' & c2 & M2 & H).
    exists y', c2. split; trivial. econstructor; eauto.
  - apply orelse_some in H. destruct H as [H|[_ H]].
    + apply IH1 in H. destruct H as (y & c1 & M1 & H).
      exists y, c1. split; trivial. now apply M_alt_l.
    + apply IH2 in H. destruct H as (y & c1 & M1 & H).
      exists y, c1. split; trivial. now apply M_alt_r.
  - apply IH in H. destruct H as (y & c1 & M1 & H).
    eexists y, _. split; [|exact H]. now constructor.
  - change (RepeatMatcher (S (min + length x)) (compile f r) min max g k x c
            = Some z) in H.
    eapply RepeatMatcher_sound; eauto.
Qed.

(** A match found by [search] starts at some position of the string. *)
Lemma search_sound (m : matcher) (s : jsstring) (z : caps) :
  search m s = Some z ->
  exists pre x, s = pre ++ x /\ m accept x [] = Some z.
Proof.
  induction s as [|h s IH]; simpl; intros H.
  - destruct (m accept [] []) eqn:E; [|discriminate].
    exists [], []. split; trivial. congruence.
  - destruct (m accept (h :: s) []) eqn:E.
    + exists [], (h :: s). split; trivial. congruence.
    + apply IH in H. destruct H as (pre & x & -> & H).
      exists (h :: pre), x. split; trivial.
Qed.

Lemma str_match_sound (s : jsstring) (re : RegExp) (z : caps) :
  str_match s re = Some z ->
  exists pre x y,
    s = pre ++ x /\ matches (flag re) (pattern re) x [] y z.
Proof.
  unfold str_match. intros H. apply search_sound in H.
  destruct H as (pre & x & -> & H).
  apply compile_sound in H. destruct H as (y & c' & M & Hk).
  unfold accept in Hk. injection Hk as ->.
  exists pre, x, y. split; trivial.
Qed.

(* ================================================================= *)
(** ** The shape of what the patterns capture *)

Lemma matches_atom (f : flags) (r : regex) x c y c' :
  is_atom r = true -> matches f r x c y c' ->
  c' = c /\ exists h, x = h :: y /\ atom_ok f r h = true.
Proof.
  intros Ha M. destruct r; try discriminate; inversion M; subst;
    (split; [reflexivity | eexists; split; [reflexivity | assumption]]).
Qed.

(** A quantified one-character atom consumes characters of the atom, binds
    no group, and respects the upper bound. *)
Lemma matches_repeat_atom (f : flags) (r : regex) :
  is_atom r = true ->
  forall rr x c y c', matches f rr x c y c' ->
  forall min max g, rr = Repeat r min max g ->
    c' = c /\
    exists pre, x = pre ++ y /\
      Forall (fun h => atom_ok f r h = true) pre /\
      (forall n, max = Some n -> (length pre <= n)%nat).
Proof.
  intros Ha rr x c y c' M.
  induction M as [| | | | | | | |r0 mn mx g0 x c Hs
                 |r0 mn mx g0 x c y c1 z c2 Hmax M1 _ M2 IH2];
    intros min max g E; try discriminate.
  - split; trivial. exists []. repeat split; auto. simpl; lia.
  - injection E as -> -> -> ->.
    destruct (matches_atom Ha M1) as (-> & h & -> & Hh).
    destruct (IH2 _ _ _ eq_refl) as (-> & pre & -> & Hpre & Hlen).
    split; trivial. exists (h :: pre). repeat split; auto.
    intros n ->. simpl. destruct n as [|n]; [congruence|].
    specialize (Hlen n eq_refl). lia.
Qed.

Lemma firstn_consumed (pre y : jsstring) :
  firstn (length (pre ++ y) - length y) (pre ++ y) = pre.
Proof.
  rewrite length_app.
  replace (length pre + length y - length y)%nat with (length pre + 0)%nat
    by lia.
  rewrite firstn_app_2. simpl. apply app_nil_r.
Qed.

(** Case analysis on the comparisons of code units in the goal. *)
Ltac char_cases :=
  repeat match goal with
  | |- context [N.leb ?a ?b] => destruct (N.leb_spec a b)
  | |- context [N.eqb ?a ?b] => destruct (N.eqb_spec a b)
  end; cbn [andb orb negb] in *; intros; try reflexivity; try discriminate;
  try lia.

Lemma is_digit_upper h : is_digit (upper_char h) = true -> is_digit h = true.
Proof.
  unfold upper_char, is_lower, is_digit, in_range.
  destruct (N.leb 97 h) eqn:E1; simpl; trivial.
  destruct (N.leb h 122) eqn:E2; simpl; trivial.
  apply N.leb_le in E1. rewrite !andb_true_iff, !N.leb_le. lia.
Qed.

Lemma is_digit_lower h : is_digit (lower_char h) = true -> is_digit h = true.
Proof.
  unfold lower_char, is_upper, is_digit, in_range.
  destruct (N.leb 65 h) eqn:E1; simpl; trivial.
  destruct (N.leb h 90) eqn:E2; simpl; trivial.
  apply N.leb_le in E1. rewrite !andb_true_iff, !N.leb_le. lia.
Qed.

(** Ignoring case adds no character to [\d]. *)
Lemma cls_digit_ignore_case (f : flags) h :
  cls_matches f is_digit h = true -> is_digit h = true.
Proof.
  unfold cls_matches. destruct (ignoreCase f); trivial.
  rewrite !orb_true_iff. intros [[H|H]|H]; trivial.
  - now apply is_digit_upper.
  - now apply is_digit_lower.
Qed.

Lemma Forall_cls_digit (f : flags) (s : jsstring) :
  Forall (fun h => atom_ok f (Cls is_digit) h = true) s -> all_digits s.
Proof.
  unfold all_digits. apply Forall_impl. intros h. simpl.
  apply cls_digit_ignore_case.
Qed.

(** Inversion of a match along the syntax of a pattern. *)
Ltac invert_match :=
  repeat match goal with
  | M : matches _ (Seq _ _) _ _ _ _ |- _ => inversion M; subst; clear M
  | M : matches _ (Group _ _) _ _ _ _ |- _ => inversion M; subst; clear M
  | M : matches _ (Chr _) _ _ _ _ |- _ => inversion M; subst; clear M
  | M : matches _ (Alt _ _) _ _ _ _ |- _ => inversion M; subst; clear M
  | M : matches _ Eos _ _ _ _ |- _ => inversion M; subst; clear M
  | M : matches _ (Repeat ?r _ _ _) _ _ _ _ |- _ =>
      let pre := fresh "pre" in
      let Hpre := fresh "Hpre" in
      let Hlen := fresh "Hlen" in
      destruct (matches_repeat_atom (r := r) eq_refl M eq_refl)
        as (-> & pre & -> & Hpre & Hlen);
      clear M
  end.

(** The three groups of the numeric date are strings of digits, of at most
    2, 2 and 4 characters. *)
Lemma date99_captures_digits (text : jsstring) (m : caps) :
  str_match text date99_re = Some m ->
  exists d mo y,
    group 1 m = Some d /\ group 2 m = Some mo /\ group 3 m = Some y /\
    all_digits d /\ all_digits mo /\ all_digits y /\
    (length d <= 2)%nat /\ (length mo <= 2)%nat /\ (length y <= 4)%nat.
Proof.
  intros H. apply str_match_sound in H.
  destruct H as (pre & x & y & -> & M).
  unfold date99_re in M. cbn [pattern flag seqs] in M.
  invert_match.
  exists pre0, pre1, pre2.
  rewrite !firstn_consumed. cbn [group Nat.eqb].
  repeat split; eauto using Forall_cls_digit.
Qed.


Lemma cls_word_ignore_case h :
  cls_matches flags_i is_word h = true ->
  is_word h = true \/ is_word (upper_char h) = true
  \/ is_word (lower_char h) = true.
Proof.
  unfold cls_matches. cbn [ignoreCase flags_i].
  rewrite !orb_true_iff. tauto.
Qed.


Lemma digit_or_comma_upper h :
  digit_or_comma (upper_char h) = true -> digit_or_comma h = true.
Proof.
  unfold upper_char. destruct (is_lower h) eqn:E; trivial.
  unfold is_lower, in_range in E. apply andb_true_iff in E.
  destruct E as [E1 E2]. apply N.leb_le in E1, E2.
  unfold digit_or_comma, is_digit, in_range, char_eqb.
  change (ch ",") with 44%N. char_cases.
Qed.

Lemma digit_or_comma_lower h :
  digit_or_comma (lower_char h) = true -> digit_or_comma h = true.
Proof.
  unfold lower_char. destruct (is_upper h) eqn:E; trivial.
  unfold is_upper, in_range in E. apply andb_true_iff in E.
  destruct E as [E1 E2]. apply N.leb_le in E1, E2.
  unfold digit_or_comma, is_digit, in_range, char_eqb.
  change (ch ",") with 44%N. char_cases.
Qed.

Lemma cls_digit_or_comma_ignore_case (f : flags) h :
  cls_matches f digit_or_comma h = true -> digit_or_comma h = true.
Proof.
  unfold cls_matches. destruct (ignoreCase f); trivial.
  rewrite !orb_true_iff. intros [[H|H]|H]; trivial.
  - now apply digit_or_comma_upper.
  - now apply digit_or_comma_lower.
Qed.

Lemma chr_dot_ignore_case (f : flags) h :
  chr_matches f (ch ".") h = true -> h = ch ".".
Proof.
  unfold chr_matches, canon, char_eqb. change (ch ".") with 46%N.
  unfold upper_char, is_lower, in_range.
  destruct (ignoreCase f); char_cases.
Qed.

Lemma atom_fare (f : flags) (r : regex) :
  r = Cls digit_or_comma \/ r = Chr (ch ".") \/ r = Cls is_digit ->
  forall h, atom_ok f r h = true -> fare_char h = true.
Proof.
  intros [->|[->| ->]] h; cbn [atom_ok]; intros H; unfold fare_char.
  - apply cls_digit_or_comma_ignore_case in H.
    unfold digit_or_comma in H. now rewrite H.
  - apply chr_dot_ignore_case in H. subst h. reflexivity.
  - apply cls_digit_ignore_case in H. now rewrite H.
Qed.

Lemma replace_first_fare_chars (v : jsstring) :
  Forall (fun h => fare_char h = true) v ->
  Forall (fun h => fare_char h = true) (replace_first (ch ",") (ch ".") v).
Proof.
  induction 1 as [|h v Hh Hv IH]; cbn [replace_first]; [constructor|].
  destruct (char_eqb h (ch ",")); constructor; auto.
Qed.

(** What [parseFloat] is given: the group of the fare pattern takes part in
    every match and holds digits, commas and dots only, before and after
    the [replace]. *)
Lemma value_capture_alphabet (text : jsstring) (m : caps) :
  str_match text value_re = Some m ->
  exists v,
    group 1 m = Some v /\
    Forall (fun h => fare_char h = true) v /\
    Forall (fun h => fare_char h = true) (replace_first (ch ",") (ch ".") v).
Proof.
  intros H. apply str_match_sound in H.
  destruct H as (pre & x & y & -> & M).
  unfold value_re in M. cbn [pattern flag seqs] in M.
  unfold star, plus, opt in M.
  invert_match.
  rewrite !app_assoc, firstn_consumed. cbn [group Nat.eqb].
  eexists. split; [reflexivity|].
  match goal with
  | |- Forall _ ?v /\ _ =>
      assert (F : Forall (fun h => fare_char h = true) v)
  end.
  { rewrite !Forall_app.
    repeat split; (eapply Forall_impl; [|eassumption]);
      intros a; apply atom_fare; auto. }
  split; [exact F | now apply replace_first_fare_chars].
Qed.

(** The groups of the three route patterns take part in every match. *)
Lemma route_groups_bound (text : jsstring) (m : caps) :
  (str_match text uber_route_re = Some m ->
     group 1 m <> None /\ group 2 m <> None) /\
  (str_match text origin99_re = Some m -> group 1 m <> None) /\
  (str_match text dest99_re = Some m -> group 1 m <> None).
Proof.
  split; [|split]; intros H; apply str_match_sound in H;
    destruct H as (pre & x & y & -> & M);
    cbn [pattern flag seqs word lit List.map list_ascii_of_string
         uber_route_re origin99_re dest99_re] in M;
    unfold star, lazy_plus in M; invert_match;
    cbn [group Nat.eqb]; try split; discriminate.
Qed.

(* ================================================================= *)
(** ** The fare pattern on the first amount of a text *)

















Lemma search_skip (m : matcher) (x : jsstring) :
  forall pre,
    (forall p1 h p2, pre = p1 ++ h :: p2 -> m accept (h :: p2 ++ x) [] = None) ->
    search m (pre ++ x) = search m x.
Proof.
  induction pre as [|h pre IH]; intros H; [reflexivity|].
  cbn [app search]. rewrite (H [] h pre eq_refl).
  apply IH. intros p1 h' p2 E. apply (H (h :: p1) h' p2). now rewrite E.
Qed.

Lemma chr_dollar h : chr_matches flags_i (ch "$") h = true -> h = ch "$".
Proof.
  unfold chr_matches, canon, char_eqb. change (ch "$") with 36%N.
  cbn [ignoreCase flags_i]. unfold upper_char, is_lower, in_range.
  char_cases.
Qed.

(** Without a [$] in second place there is no match of the fare pattern at
    the start of a string. *)
Lemma value_match_needs_dollar (h : char) (y : jsstring) :
  stops (fun c => char_eqb c (ch "$")) y ->
  compile (flag value_re) (pattern value_re) accept (h :: y) [] = None.
Proof.
  intros Hy. unfold value_re. cbn [pattern flag seqs]. cbn [compile].
  unfold one at 1. destruct (chr_matches flags_i (ch "R") h); trivial.
  unfold one at 1. destruct y as [|h' y]; trivial.
  destruct (chr_matches flags_i (ch "$") h') eqn:E; trivial.
  apply chr_dollar in E. subst h'. vm_compute in Hy. discriminate.
Qed.



(** A string without any [$] has no match of the fare pattern. *)
Lemma fare_no_match (s : jsstring) :
  Forall (fun h => char_eqb h (ch "$") = false) s ->
  str_match s value_re = None.
Proof.
  intros H. unfold str_match.
  rewrite <- (app_nil_r s). rewrite search_skip.
  - reflexivity.
  - intros p1 h p2 E. apply value_match_needs_dollar.
    rewrite E in H. apply Forall_app in H. destruct H as [_ Hp].
    inversion Hp as [|? ? _ Hp2]; subst.
    destruct p2 as [|h2 p2]; cbn [app stops]; trivial.
    now inversion Hp2.
Qed.
























(* ================================================================= *)
(** ** Numbers read from digits, and the dates built from them *)

Lemma digit_val_range h : is_digit h = true -> (0 <= digit_val h <= 9)%Z.
Proof.
  unfold is_digit, in_range, digit_val.
  rewrite andb_true_iff, !N.leb_le. lia.
Qed.

Lemma fold_digits_bound (s : jsstring) :
  all_digits s ->
  forall acc, (0 <= acc)%Z ->
    (acc * 10 ^ Z.of_nat (length s)
       <= fold_left (fun a h => 10 * a + digit_val h) s acc
       < (acc + 1) * 10 ^ Z.of_nat (length s))%Z.
Proof.
  induction 1 as [|h s Hh _ IH]; intros acc Hacc.
  - simpl. lia.
  - cbn [fold_left length]. rewrite Nat2Z.inj_succ, Z.pow_succ_r by lia.
    apply digit_val_range in Hh.
    specialize (IH (10 * acc + digit_val h)%Z ltac:(lia)).
    assert (0 < 10 ^ Z.of_nat (length s))%Z by (apply Z.pow_pos_nonneg; lia).
    nia.
Qed.

Lemma digits_val_bound (s : jsstring) (n : nat) :
  all_digits s -> (length s <= n)%nat ->
  (0 <= digits_val s < 10 ^ Z.of_nat n)%Z.
Proof.
  intros Hs Hn. unfold digits_val.
  pose proof (fold_digits_bound Hs (acc := 0%Z) ltac:(lia)) as B.
  assert (10 ^ Z.of_nat (length s) <= 10 ^ Z.of_nat n)%Z
    by (apply Z.pow_le_mono_r; lia).
  lia.
Qed.

Lemma ToNumber_digits (s : jsstring) :
  all_digits s -> ToNumber s = Num (inject_Z (digits_val s)).
Proof.
  intros Hs. unfold ToNumber. destruct s as [|h s]; [reflexivity|].
  replace (forallb is_digit (h :: s)) with true; [reflexivity|].
  symmetry. apply forallb_forall. now apply Forall_forall.
Qed.

Lemma trunc_inject_Z n : trunc (inject_Z n) = n.
Proof.
  unfold trunc, inject_Z. simpl. apply Z.quot_1_r.
Qed.

Lemma trunc_minus_one n : trunc (inject_Z n - 1)%Q = (n - 1)%Z.
Proof.
  unfold trunc, inject_Z. simpl. rewrite Z.quot_1_r. lia.
Qed.

Lemma DayFromYear_bound y :
  (-2 <= y <= 20000 -> -800000 <= DayFromYear y <= 7000000)%Z.
Proof.
  unfold DayFromYear. intros H. Z.div_mod_to_equations. lia.
Qed.

Lemma MonthStart_bound leap mn :
  (0 <= leap <= 1 -> 0 <= MonthStart leap mn <= 335)%Z.
Proof.
  intros H. unfold MonthStart.
  repeat match goal with
  | |- context [match ?x with _ => _ end] => destruct x
  end; lia.
Qed.

Lemma InLeapYear_range y : (0 <= InLeapYear y <= 1)%Z.
Proof.
  unfold InLeapYear. destruct (DaysInYear y =? 366)%Z; lia.
Qed.

Lemma MakeFullYear_range y :
  (0 <= y < 10000 -> 0 <= MakeFullYear y < 10000)%Z.
Proof.
  unfold MakeFullYear. intros H.
  destruct ((0 <=? y) && (y <=? 99))%Z eqn:E; lia.
Qed.

(** A year of four digits, a month and a day of two, whatever their values,
    give a time value within the range of a Date. *)
Lemma new_Date_of_digits (y m d : Z) :
  (0 <= y < 10000)%Z -> (-1 <= m < 100)%Z -> (0 <= d < 100)%Z ->
  TimeClip (MakeDay (MakeFullYear y) m d * msPerDay)
  = ValidDate (MakeDay (MakeFullYear y) m d * msPerDay).
Proof.
  intros Hy Hm Hd. apply MakeFullYear_range in Hy.
  unfold TimeClip, MakeDay, msPerDay.
  set (ym := (MakeFullYear y + m / 12)%Z).
  assert (Hym : (-2 <= ym <= 20000)%Z)
    by (unfold ym; Z.div_mod_to_equations; lia).
  pose proof (DayFromYear_bound Hym).
  pose proof (MonthStart_bound (m mod 12) (InLeapYear_range ym)).
  match goal with
  | |- (if ?b then _ else _) = _ => destruct b eqn:E; [lia | reflexivity]
  end.
Qed.

(* ================================================================= *)
(** ** The receipt parsers *)

(** Both parsers return the record exactly when [ride.value] is truthy; what
    the route and the date patterns found plays no part. *)
Lemma parsers_gate_on_value (text html : jsstring) :
  (parseUberReceipt text html <> None
     <-> value_truthy (extract_value text html) = true) /\
  (parse99Receipt text html <> None
     <-> value_truthy (extract_value text html) = true).
Proof.
  unfold parseUberReceipt, parse99Receipt. cbn [value].
  destruct (value_truthy (extract_value text html)); split; split;
    intros H; congruence.
Qed.

Lemma parseUber_fields (text html : jsstring) (ride : Ride) :
  parseUberReceipt text html = Some ride ->
  platform ride = lit "uber" /\
  value ride = extract_value text html /\
  value_truthy (value ride) = true /\
  raw_email ride = None /\
  datetime ride =
    option_map
      (fun m => new_Date (ToNumber (capture 3 m))
                  (month_number (toLowerCase (capture 2 m)))
                  (ToNumber (capture 1 m)))
      (str_match text uber_date_re).
Proof.
  unfold parseUberReceipt. cbn [value].
  destruct (value_truthy (extract_value text html)) eqn:E; [|discriminate].
  intros H. injection H as <-. cbn. auto.
Qed.

Lemma parse99_fields (text html : jsstring) (ride : Ride) :
  parse99Receipt text html = Some ride ->
  platform ride = lit "99" /\
  value ride = extract_value text html /\
  value_truthy (value ride) = true /\
  raw_email ride = None /\
  datetime ride =
    option_map
      (fun m => new_Date (ToNumber (capture 3 m))
                  (minus_one (ToNumber (capture 2 m)))
                  (ToNumber (capture 1 m)))
      (str_match text date99_re).
Proof.
  unfold parse99Receipt. cbn [value].
  destruct (value_truthy (extract_value text html)) eqn:E; [|discriminate].
  intros H. injection H as <-. cbn. auto.
Qed.

(** A Platform A receipt whose first textual date
    [<day> de <month-name> de <year>] has a month name that is not a key of
    the month table gets a timestamp that is present and is the Invalid
    Date: the lookup gives [undefined], which the Date constructor turns
    into NaN. *)
Lemma uber_unknown_month_gives_invalid_date
    (text html : jsstring) (ride : Ride) (m : caps) :
  parseUberReceipt text html = Some ride ->
  str_match text uber_date_re = Some m ->
  months (toLowerCase (capture 2 m)) = None ->
  datetime ride = Some InvalidDate.
Proof.
  intros Hp Hm Hk. apply parseUber_fields in Hp.
  destruct Hp as (_ & _ & _ & _ & ->). rewrite Hm. cbn [option_map].
  unfold month_number. rewrite Hk. unfold new_Date.
  destruct (ToNumber (capture 3 m)); reflexivity.
Qed.

(** C6 (as amended).  A Platform B receipt whose text has a numeric date
    [<day>/<month>/<year>] gets, whatever the day and the month, the
    timestamp that the Date constructor builds from the three numbers taken
    by position, with out-of-range values carried over into the
    neighbouring months and years: there is no range check, and the
    timestamp is a valid one, never the Invalid Date. *)
Theorem parse99_date_is_carried_over
    (text html : jsstring) (ride : Ride) (m : caps) :
  parse99Receipt text html = Some ride ->
  str_match text date99_re = Some m ->
  exists d mo y,
    group 1 m = Some d /\ group 2 m = Some mo /\ group 3 m = Some y /\
    all_digits d /\ all_digits mo /\ all_digits y /\
    datetime ride =
      Some (ValidDate (MakeDay (MakeFullYear (digits_val y))
                               (digits_val mo - 1) (digits_val d)
                       * msPerDay)).
Proof.
  intros Hp Hm. apply parse99_fields in Hp.
  destruct Hp as (_ & _ & _ & _ & ->). rewrite Hm. cbn [option_map].
  destruct (date99_captures_digits _ Hm)
    as (d & mo & y & G1 & G2 & G3 & Dd & Dmo & Dy & Ld & Lmo & Ly).
  exists d, mo, y. repeat (split; [assumption|]).
  unfold capture. rewrite G1, G2, G3.
  rewrite !ToNumber_digits by assumption.
  unfold minus_one, new_Date.
  rewrite !trunc_inject_Z, trunc_minus_one.
  pose proof (digits_val_bound Dd Ld).
  pose proof (digits_val_bound Dmo Lmo).
  pose proof (digits_val_bound Dy Ly).
  rewrite new_Date_of_digits; [reflexivity | | |];
    change (10 ^ Z.of_nat 2)%Z with 100%Z in *;
    change (10 ^ Z.of_nat 4)%Z with 10000%Z in *; lia.
Qed.

Lemma uber_unknown_month_witness :
  exists ride m,
    parseUberReceipt text_marco [] = Some ride /\
    str_match text_marco uber_date_re = Some m /\
    months (toLowerCase (capture 2 m)) = None /\
    datetime ride = Some InvalidDate.
Proof.
  destruct (parseUberReceipt text_marco []) as [ride|] eqn:Hp;
    [|vm_compute in Hp; discriminate].
  destruct (str_match text_marco uber_date_re) as [m|] eqn:Hm;
    [|vm_compute in Hm; discriminate].
  assert (Hk : months (toLowerCase (capture 2 m)) = None).
  { vm_compute in Hm. injection Hm as <-. vm_compute. reflexivity. }
  exists ride, m. repeat split; trivial.
  exact (uber_unknown_month_gives_invalid_date _ _ Hp Hm Hk).
Defined.

(** C5, at a receipt dated [5 de marco de 2024].  The month name [marco] is
    not a key of the table; the candidate's timestamp is not left unset, it
    is the Invalid Date, which is truthy and so is not replaced by the
    current time when the ride is stored. *)
Theorem uber_unknown_month_timestamp_is_set :
  exists ride m,
    parseUberReceipt text_marco [] = Some ride /\
    str_match text_marco uber_date_re = Some m /\
    capture 2 m = lit "marco" /\
    months (toLowerCase (capture 2 m)) = None /\
    datetime ride = Some InvalidDate /\
    datetime ride <> None /\
    datetime_or_now ride 0 = InvalidDate.
Proof.
  eexists. eexists.
  split; [vm_compute; reflexivity|].
  split; [vm_compute; reflexivity|].
  split; [vm_compute; reflexivity|].
  split; [vm_compute; reflexivity|].
  split; [reflexivity|]. split; [discriminate | reflexivity].
Qed.

Lemma parse99_date_witness :
  exists ride m d mo y,
    parse99Receipt text_out_of_range [] = Some ride /\
    str_match text_out_of_range date99_re = Some m /\
    group 1 m = Some d /\ group 2 m = Some mo /\ group 3 m = Some y /\
    all_digits d /\ all_digits mo /\ all_digits y /\
    datetime ride =
      Some (ValidDate (MakeDay (MakeFullYear (digits_val y))
                               (digits_val mo - 1) (digits_val d)
                       * msPerDay)).
Proof.
  destruct (parse99Receipt text_out_of_range []) as [ride|] eqn:Hp;
    [|vm_compute in Hp; discriminate].
  destruct (str_match text_out_of_range date99_re) as [m|] eqn:Hm;
    [|vm_compute in Hm; discriminate].
  destruct (parse99_date_is_carried_over _ _ Hp Hm)
    as (d & mo & y & H).
  exists ride, m, d, mo, y. repeat split; trivial; apply H.
Defined.

(** C6 fails as stated: day 45 of month 13 of 2024 is carried over to
    14 February 2025, a valid timestamp, not an invalid one. *)
Lemma parse99_out_of_range_date_is_valid :
  exists ride,
    parse99Receipt text_out_of_range [] = Some ride /\
    datetime ride = Some (ValidDate 1739491200000) /\
    datetime ride <> Some InvalidDate.
Proof.
  eexists. split; [vm_compute; reflexivity|].
  split; [reflexivity | discriminate].
Qed.


(** C4, at a fare of zero.  The pattern finds [0,00], [ride.value] is the
    number 0, and the truthiness test of the last line of each parser
    returns [null] for it. *)
Theorem zero_fare_is_rejected :
  str_match text_zero_fare value_re = Some [(1%nat, lit "0,00")] /\
  extract_value text_zero_fare [] = Some (Num (0 # 100)) /\
  parseUberReceipt text_zero_fare [] = None /\
  parse99Receipt text_zero_fare [] = None.
Proof.
  repeat split; vm_compute; reflexivity.
Qed.

(* ================================================================= *)
(** ** The fare is a positive number *)

Lemma span_spec (p : char -> bool) (s : jsstring) :
  s = fst (span p s) ++ snd (span p s) /\
  Forall (fun h => p h = true) (fst (span p s)).
Proof.
  induction s as [|h s [IH1 IH2]]; simpl.
  - split; [reflexivity | constructor].
  - destruct (p h) eqn:E.
    + destruct (span p s) as [a b]. simpl in *. split.
      * now f_equal.
      * now constructor.
    + split; [reflexivity | constructor].
Qed.

Lemma digits_val_nonneg (s : jsstring) : all_digits s -> (0 <= digits_val s)%Z.
Proof.
  intros H. apply (digits_val_bound H (Nat.le_refl _)).
Qed.

Lemma decimal_nonneg (i f : jsstring) :
  all_digits i -> all_digits f -> (0 <= decimal i f)%Q.
Proof.
  intros Hi Hf. apply digits_val_nonneg in Hi, Hf.
  unfold decimal, Qle, Qplus, inject_Z. cbn [Qnum Qden]. nia.
Qed.

(** The rounding at work: a tenth, the first integer that is not a double,
    a number below half of the least double, two decimals with the same
    double, and a run of 400 digits, which is infinite. *)
Example round_double_examples :
  round_double (1 # 10) = (3602879701896397 # 36028797018963968)%Q /\
  round_double (9007199254740993 # 1) = (9007199254740992 # 1)%Q /\
  round_double (1 # 10 ^ 324) = 0%Q /\
  parseFloat (lit "0.1000000000000000055") = parseFloat (lit "0.1") /\
  exists q,
    parseFloat (lit "1" ++ repeat (ch "0") 400) = Num q /\
    is_infinite q = true.
Proof.
  repeat (split; [vm_compute; reflexivity|]).
  eexists. split; [reflexivity|]. vm_compute. reflexivity.
Qed.

Lemma pow2_pos (e : Z) : (0 < pow2 e)%Q.
Proof.
  unfold pow2. destruct (0 <=? e)%Z eqn:E.
  - apply Z.leb_le in E. unfold Qlt, inject_Z. cbn [Qnum Qden].
    pose proof (Z.pow_pos_nonneg 2 e). lia.
  - reflexivity.
Qed.

Lemma round_half_even_nonneg (q : Q) :
  (0 <= q)%Q -> (0 <= round_half_even q)%Z.
Proof.
  intros H. unfold Qle in H. cbn [Qnum Qden] in H.
  assert (K : (0 <= Qnum q / Zpos (Qden q))%Z)
    by (apply Z.div_pos; lia).
  unfold round_half_even.
  destruct (2 * (Qnum q mod Zpos (Qden q)) ?= Zpos (Qden q))%Z;
    [destruct (Z.even _)| |]; lia.
Qed.

Lemma nearest_double_nonneg (q : Q) : (0 <= q)%Q -> (0 <= nearest_double q)%Q.
Proof.
  intros H. unfold nearest_double. rewrite Qred_correct.
  set (ulp := pow2 _). pose proof (pow2_pos (Z.max (floor_log2 q) (-1022) - 52))
    as P. fold ulp in P.
  apply Qmult_le_0_compat; [|now apply Qlt_le_weak].
  assert (D : (0 <= q / ulp)%Q).
  { apply Qle_shift_div_l; trivial. now rewrite Qmult_0_l. }
  apply round_half_even_nonneg in D.
  unfold Qle, inject_Z. cbn [Qnum Qden]. lia.
Qed.

(** Rounding keeps a number that is not negative so. *)
Lemma round_double_nonneg (q : Q) : (0 <= q)%Q -> (0 <= round_double q)%Q.
Proof.
  intros H. unfold round_double.
  destruct (Qeq_bool q 0); trivial.
  destruct (Qle_bool (pow2 1024) _); trivial.
  destruct (Qeq_bool _ _); trivial.
  destruct (Qle_bool 0 q) eqn:E.
  - apply nearest_double_nonneg. apply Qabs_nonneg.
  - apply Qle_bool_iff in H. congruence.
Qed.

Lemma parseFloat_nonneg (s : jsstring) (q : Q) :
  parseFloat s = Num q -> (0 <= q)%Q.
Proof.
  unfold parseFloat.
  pose proof (span_spec is_digit s) as [_ Hi].
  destruct (span is_digit s) as [i r]. cbn [fst] in Hi.
  assert (W : match i with
              | [] => NaN
              | _ :: _ => Num (round_double (inject_Z (digits_val i)))
              end = Num q -> (0 <= q)%Q).
  { destruct i as [|h i]; [discriminate|]. intros [= <-].
    apply digits_val_nonneg in Hi. apply round_double_nonneg.
    unfold Qle, inject_Z. cbn [Qnum Qden]. lia. }
  destruct r as [|h r]; [exact W|].
  destruct (char_eqb h 46%N); [|exact W].
  pose proof (span_spec is_digit r) as [_ Hf].
  destruct (span is_digit r) as [f r']. cbn [fst] in Hf.
  destruct i as [|a i]; destruct f as [|b f]; try discriminate;
    intros [= <-]; apply round_double_nonneg; now apply decimal_nonneg.
Qed.

Lemma extract_value_nonneg (text html : jsstring) (q : Q) :
  extract_value text html = Some (Num q) -> (0 <= q)%Q.
Proof.
  unfold extract_value.
  destruct (or_match (str_match text value_re) (str_match html value_re));
    [|discriminate].
  cbn [option_map]. intros [= H]. now apply parseFloat_nonneg in H.
Qed.

Lemma truthy_nonneg_positive (q : Q) :
  num_truthy (Num q) = true -> (0 <= q)%Q -> (0 < q)%Q.
Proof.
  cbn [num_truthy]. unfold rounds_to_zero. intros T N.
  apply negb_true_iff in T.
  destruct (Qlt_le_dec 0 q) as [L|L]; [exact L|].
  assert (E : (q == 0)%Q) by (apply Qle_antisym; assumption).
  assert (B : Qle_bool (Qabs q) half_min_double = true).
  { apply Qle_bool_iff. rewrite E. unfold Qle. cbn. lia. }
  congruence.
Qed.

(* ================================================================= *)
(** ** The pipeline, case by case *)

Lemma detect_and_parse_some (mail : Mail) (ride : Ride) (called : list Event) :
  detect_and_parse mail = (Some ride, called) ->
  exists p,
    (p = lit "uber" \/ p = lit "99") /\
    called = [ParserCalled p] /\ platform ride = p /\
    raw_email ride = None /\
    exists q, value ride = Some (Num q) /\ (0 < q)%Q.
Proof.
  unfold detect_and_parse.
  set (text := or_empty (mail_text mail)).
  set (html := or_empty (mail_html mail)).
  assert (V : forall r, value r = extract_value text html ->
                value_truthy (value r) = true ->
                exists q, value r = Some (Num q) /\ (0 < q)%Q).
  { intros r Hv Ht. destruct (value r) as [[|q]|] eqn:E; try discriminate.
    exists q. split; trivial. apply truthy_nonneg_positive; trivial.
    symmetry in Hv. now apply extract_value_nonneg in Hv. }
  destruct (includes _ (lit "uber") || includes _ (lit "uber"))%bool.
  - intros [= Hp <-]. apply parseUber_fields in Hp.
    destruct Hp as (P & Hv & Ht & R & _).
    exists (lit "uber"). repeat split; auto.
  - destruct (includes _ (lit "99") || includes _ (lit "99"))%bool;
      [|discriminate].
    intros [= Hp <-]. apply parse99_fields in Hp.
    destruct Hp as (P & Hv & Ht & R & _).
    exists (lit "99"). repeat split; auto.
Qed.

Lemma insert_ride_cases (db : DB) uid p v o d t raw :
  (exists err, insert_ride db uid p v o d t raw = (inl err, db)) \/
  (exists pv vv tv,
     p = Some pv /\ v = Some vv /\ t = Some tv /\
     insert_ride db uid p v o d t raw =
       (inr (ride_seq db + 1)%Z,
        {| users := users db;
           rides := rides db ++
             [{| row_id := (ride_seq db + 1)%Z; row_user := uid;
                 row_platform := p; row_value := v; row_origin := o;
                 row_destination := d; row_datetime := t;
                 row_raw := raw |}];
           ride_seq := (ride_seq db + 1)%Z |})).
Proof.
  unfold insert_ride.
  destruct p as [pv|]; cbn [is_null]; [|left; eauto].
  destruct v as [vv|]; cbn [is_null]; [|left; eauto].
  destruct t as [tv|]; cbn [is_null]; [|left; eauto].
  right. exists pv, vv, tv. auto.
Qed.

Lemma processEmail_settles mail raw u now db :
  settles mail raw u now db (processEmail mail raw u now db).
Proof.
  unfold processEmail.
  destruct (detect_and_parse mail) as [[ride|] called] eqn:D.
  - destruct (user_by_unique_email db u) as [user|] eqn:U.
    + match goal with
      | |- context [insert_ride ?a ?b ?c ?d ?e ?f ?g ?h] =>
          destruct (insert_ride_cases a b c d e f g h)
            as [(err & ->)|(pv & vv & tv & Hp & Hv & Ht & ->)]
      end.
      * eapply S_store_error; eauto.
      * eapply S_stored with
          (row := {| row_id := (ride_seq db + 1)%Z; row_user := user_id user;
                     row_platform := _; row_value := _; row_origin := _;
                     row_destination := _; row_datetime := _;
                     row_raw := _ |}); eauto.
    + eapply S_no_user; eauto.
  - now apply S_no_extraction.
Qed.

Lemma detect_unrecognized (mail : Mail) :
  mentions mail (lit "uber") = false ->
  mentions mail (lit "99") = false ->
  detect_and_parse mail = (None, []).
Proof.
  unfold mentions, detect_and_parse. intros Hu Hn. now rewrite Hu, Hn.
Qed.

Lemma detect_trace_no_lookup (mail : Mail) r called :
  detect_and_parse mail = (r, called) -> ~ In UserLookup called.
Proof.
  unfold detect_and_parse.
  repeat match goal with
  | |- context [if ?b then _ else _] => destruct b
  end; intros [= _ <-] H; simpl in H; intuition discriminate.
Qed.

Lemma processEmail_no_candidate mail raw u now db called :
  detect_and_parse mail = (None, called) ->
  processEmail mail raw u now db =
    {| outcome := Rejected msg_no_extraction; db_after := db;
       trace := called |}.
Proof.
  unfold processEmail. now intros ->.
Qed.

(* ================================================================= *)
(** ** The claims about the pipeline *)

(** C1 (as amended).  An email whose sender and subject name no known
    platform is rejected without any parser being called and without any
    access to the store; the rejection carries the message
    ['Não foi possível extrair informações do email'], which is also the
    message of every rejection for a receipt of a known platform in which
    no fare was found: the caller cannot tell the two apart. *)
Theorem unrecognized_platform_rejection
    (mail : Mail) (raw : jsstring) (u : option jsstring) (now : Z) (db : DB) :
  mentions mail (lit "uber") = false ->
  mentions mail (lit "99") = false ->
  let run := processEmail mail raw u now db in
  outcome run = Rejected msg_no_extraction /\
  trace run = [] /\
  db_after run = db /\
  forall mail' raw' u' now' db' called,
    detect_and_parse mail' = (None, called) ->
    outcome (processEmail mail' raw' u' now' db') = outcome run.
Proof.
  intros Hf Hs run. subst run.
  rewrite (@processEmail_no_candidate mail raw u now db []
             (@detect_unrecognized mail Hf Hs)).
  cbn. repeat split; trivial.
  intros mail' raw' u' now' db' called D.
  now rewrite (@processEmail_no_candidate mail' raw' u' now' db' called D).
Qed.

Lemma unrecognized_platform_witness :
  mentions mail_unknown (lit "uber") = false /\
  mentions mail_unknown (lit "99") = false /\
  outcome (processEmail mail_unknown raw_bytes (Some alice_address) 0 db_alice)
    = Rejected msg_no_extraction /\
  trace (processEmail mail_unknown raw_bytes (Some alice_address) 0 db_alice)
    = [].
Proof.
  assert (Hf : mentions mail_unknown (lit "uber") = false)
    by (vm_compute; reflexivity).
  assert (Hs : mentions mail_unknown (lit "99") = false)
    by (vm_compute; reflexivity).
  destruct (@unrecognized_platform_rejection mail_unknown raw_bytes
              (Some alice_address) 0%Z db_alice Hf Hs) as (H1 & H2 & _).
  auto.
Defined.

(** C1 fails as stated: an email of no known platform and a receipt of a
    known platform without a fare are rejected with one and the same
    reason. *)
Lemma unrecognized_platform_reason_not_distinct :
  mentions mail_unknown (lit "uber") = false /\
  mentions mail_unknown (lit "99") = false /\
  detect_and_parse mail_uber_no_fare = (None, [ParserCalled (lit "uber")]) /\
  outcome (processEmail mail_unknown raw_bytes (Some alice_address) 0 db_alice)
  = outcome (processEmail mail_uber_no_fare raw_bytes (Some alice_address) 0
               db_alice).
Proof.
  repeat split; vm_compute; reflexivity.
Qed.

(** C2 (as amended).  [processEmail] itself writes to the store: when it
    resolves, one row has been appended to [rides], carrying the raw email
    and the id that the returned record has; when it rejects, the store is
    as before.  The webhook, its caller, adds nothing: the store it leaves
    is the one [processEmail] left. *)
Theorem processEmail_persists
    (mail : Mail) (raw : jsstring) (u : option jsstring) (now : Z) (db : DB) :
  let run := processEmail mail raw u now db in
  match outcome run with
  | Resolved r id =>
      exists row,
        rides (db_after run) = rides db ++ [row] /\
        row_id row = id /\ row_raw row = Some raw /\
        raw_email r = Some raw /\
        In RideInsert (trace run)
  | Rejected _ => db_after run = db
  end /\
  forall header query,
    u = to_email header query ->
    snd (webhook_email mail raw header query now db) = db_after run.
Proof.
  intros run. split.
  - subst run. destruct (processEmail_settles mail raw u now db); cbn; trivial.
    exists row. repeat split; trivial.
    apply in_or_app. right. cbn. auto.
  - intros header query ->. unfold webhook_email. fold run.
    destruct (outcome run); reflexivity.
Qed.

(** C2 fails as stated: after [processEmail] on a receipt with a fare, for
    a known recipient, the store holds one ride more. *)
Lemma processEmail_changes_store :
  rides db_alice = [] /\
  length (rides (db_after (processEmail mail_uber_fare raw_bytes
                             (Some alice_address) 0 db_alice))) = 1%nat /\
  db_after (processEmail mail_uber_fare raw_bytes (Some alice_address) 0
              db_alice) <> db_alice.
Proof.
  split; [reflexivity|]. split; [vm_compute; reflexivity|].
  intros E. apply (f_equal (fun d => length (rides d))) in E.
  vm_compute in E. discriminate.
Qed.

(** C7.  When a candidate was extracted and the recipient address is the
    ingestion address of no user, [processEmail] rejects with
    ['Usuário não encontrado'], a message other than that of a failed
    extraction, and leaves the store as it was.  The lookup of the user
    comes only after a successful extraction: in every run in which it
    takes place a parser was called before and returned a candidate. *)
Theorem unknown_recipient_rejection
    (mail : Mail) (raw : jsstring) (u : option jsstring) (now : Z) (db : DB)
    (ride : Ride) (called : list Event) :
  detect_and_parse mail = (Some ride, called) ->
  user_by_unique_email db u = None ->
  let run := processEmail mail raw u now db in
  outcome run = Rejected msg_user_not_found /\
  msg_user_not_found <> msg_no_extraction /\
  db_after run = db /\
  trace run = called ++ [UserLookup] /\
  forall mail' raw' u' now' db',
    In UserLookup (trace (processEmail mail' raw' u' now' db')) ->
    exists ride' p rest,
      detect_and_parse mail' = (Some ride', [ParserCalled p]) /\
      trace (processEmail mail' raw' u' now' db')
        = ParserCalled p :: UserLookup :: rest.
Proof.
  intros D U run. subst run.
  assert (E : processEmail mail raw u now db =
              {| outcome := Rejected msg_user_not_found; db_after := db;
                 trace := called ++ [UserLookup] |}).
  { unfold processEmail. now rewrite D, U. }
  rewrite E. cbn. repeat split; trivial.
  - discriminate.
  - intros mail' raw' u' now' db' Hin.
    destruct (processEmail_settles mail' raw' u' now' db')
      as [c D'|r c D' U'|r c us err D' U'|r c us row D' U'];
      cbn [trace] in *.
    + exfalso. exact (detect_trace_no_lookup _ D' Hin).
    + destruct (@detect_and_parse_some _ _ _ D') as (p & _ & -> & _).
      exists r, p, []. split; trivial.
    + destruct (@detect_and_parse_some _ _ _ D') as (p & _ & -> & _).
      exists r, p, [RideInsert]. split; trivial.
    + destruct (@detect_and_parse_some _ _ _ D') as (p & _ & -> & _).
      exists r, p, [RideInsert]. split; trivial.
Qed.

Lemma unknown_recipient_witness :
  exists ride,
    detect_and_parse mail_uber_fare = (Some ride, [ParserCalled (lit "uber")]) /\
    user_by_unique_email db_alice (Some (lit "nobody@ridetrack.app")) = None /\
    outcome (processEmail mail_uber_fare raw_bytes
               (Some (lit "nobody@ridetrack.app")) 0 db_alice)
      = Rejected msg_user_not_found /\
    db_after (processEmail mail_uber_fare raw_bytes
                (Some (lit "nobody@ridetrack.app")) 0 db_alice) = db_alice.
Proof.
  destruct (detect_and_parse mail_uber_fare) as [[ride|] called] eqn:D;
    [|vm_compute in D; discriminate].
  assert (C : called = [ParserCalled (lit "uber")])
    by (vm_compute in D; injection D as _ <-; reflexivity).
  subst called.
  assert (U : user_by_unique_email db_alice (Some (lit "nobody@ridetrack.app"))
              = None) by (vm_compute; reflexivity).
  destruct (@unknown_recipient_rejection mail_uber_fare raw_bytes
              (Some (lit "nobody@ridetrack.app")) 0%Z db_alice ride
              [ParserCalled (lit "uber")] D U) as (H1 & _ & H3 & _).
  exists ride. auto.
Defined.

(* ================================================================= *)
(** ** The claims about the store *)

Lemma stored_row_of_pipeline mail (ride : Ride) called (row : RideRow) :
  detect_and_parse mail = (Some ride, called) ->
  row_platform row = Some (platform ride) ->
  row_value row = bind_num (value ride) ->
  row_of_pipeline row.
Proof.
  intros D P V.
  destruct (@detect_and_parse_some _ _ _ D)
    as (p & Hp & _ & <- & _ & q & Hq & Pos).
  unfold row_of_pipeline. rewrite P, V, Hq. cbn [bind_num]. split.
  - destruct Hp as [-> | ->]; auto.
  - exists q. auto.
Qed.

Lemma row_of_pipeline_present (row : RideRow) :
  row_of_pipeline row -> row_present row.
Proof.
  intros [[P|P] (q & V & _)]; unfold row_present; rewrite P, V;
    split; discriminate.
Qed.

Lemma store_present_snoc (db : DB) (row : RideRow) id :
  store_present db -> row_present row ->
  store_present {| users := users db; rides := rides db ++ [row];
                   ride_seq := id |}.
Proof.
  unfold store_present. cbn [rides]. intros H R.
  apply Forall_app. split; [exact H | now constructor].
Qed.

(** C8 (as amended).  Every operation that writes rides keeps this true of
    the store: each ride has a platform and a value, neither of them NULL.
    A ride written by the extraction pipeline has moreover one of the tags
    ['uber'] and ['99'] and a positive value.  The manual entry stores the
    platform text and the number it is given, whatever they are. *)
Theorem writes_keep_platform_and_value
    (sql_id_eq : Z -> jsstring -> bool) (db : DB) :
  store_present db ->
  (forall mail raw u now,
     store_present (db_after (processEmail mail raw u now db))) /\
  (forall b now, store_present (snd (add_ride b now db))) /\
  (forall id, store_present (snd (delete_ride sql_id_eq id db))) /\
  (forall mail raw u now r id,
     outcome (processEmail mail raw u now db) = Resolved r id ->
     exists row,
       rides (db_after (processEmail mail raw u now db)) = rides db ++ [row] /\
       row_of_pipeline row).
Proof.
  intros H. repeat split.
  - intros mail raw u now.
    destruct (processEmail_settles mail raw u now db); cbn [db_after]; trivial.
    apply store_present_snoc; trivial.
    apply row_of_pipeline_present. eapply stored_row_of_pipeline; eauto.
  - intros b now. unfold add_ride.
    destruct (user_by_any_email db (body_userEmail b)) as [user|]; trivial.
    match goal with
    | |- context [insert_ride ?a ?b ?c ?d ?e ?f ?g ?h] =>
        destruct (insert_ride_cases a b c d e f g h)
          as [(err & ->)|(pv & vv & tv & Hp & Hv & Ht & ->)]
    end; cbn [snd]; trivial.
    apply store_present_snoc; trivial.
    unfold row_present. cbn. rewrite Hp, Hv. split; discriminate.
  - intros id. unfold delete_ride, store_present in *. cbn [snd rides].
    rewrite Forall_forall in *. intros r Hr. apply filter_In in Hr.
    apply H, Hr.
  - intros mail raw u now r id.
    destruct (processEmail_settles mail raw u now db); cbn; try discriminate.
    intros _. exists row. split; trivial.
    eapply stored_row_of_pipeline; eauto.
Qed.

Lemma writes_keep_platform_and_value_witness :
  store_present db_one_ride /\
  store_present (snd (add_ride body_negative 0 db_one_ride)) /\
  store_present (snd (delete_ride id_eq_digits (lit "1") db_one_ride)).
Proof.
  assert (H : store_present db_one_ride).
  { constructor; [|constructor]. split; discriminate. }
  destruct (writes_keep_platform_and_value id_eq_digits H)
    as (_ & A & D & _).
  split; [exact H|]. split; [apply A | apply D].
Defined.

(** C8 fails as stated: the manual entry stores a ride of value -5. *)
Lemma manual_entry_stores_negative_value :
  exists row,
    rides (snd (add_ride body_negative 0 db_alice)) = [row] /\
    row_value row = Some (-5 # 1)%Q /\
    (-5 # 1 < 0)%Q.
Proof.
  eexists. split; [vm_compute; reflexivity|].
  split; [reflexivity|]. reflexivity.
Qed.

Lemma filter_none {A : Type} (p : A -> bool) (l : list A) :
  (forall a, In a l -> p a = false) -> filter p l = [].
Proof.
  induction l as [|a l IH]; intros H; simpl; trivial.
  rewrite (H a) by now left. apply IH. intros b Hb. apply H. now right.
Qed.

Lemma filter_all {A : Type} (p : A -> bool) (l : list A) :
  (forall a, In a l -> p a = true) -> filter p l = l.
Proof.
  induction l as [|a l IH]; intros H; simpl; trivial.
  rewrite (H a) by now left. f_equal. apply IH. intros b Hb. apply H.
  now right.
Qed.

(** C9.  For a user without any stored ride the statistics are total 0,
    count 0 and average 0 (the figures of the month too); and whenever the
    rows aggregated are none, the average is 0: the division is not
    performed. *)
Theorem stats_of_no_rides
    (month_and_year : option DateCell -> option (Z * Z))
    (userEmail : jsstring) (m y : Z) (db : DB) (user : User) :
  user_by_any_email db (Some userEmail) = Some user ->
  (forall r, In r (rides db) -> row_user r <> user_id user) ->
  get_stats month_and_year userEmail m y db = Stats 0 0 0 0 0 /\
  forall rs, length rs = 0%nat ->
    aggregate month_and_year m y rs = Stats 0 0 0 0 0.
Proof.
  intros U N. split.
  - unfold get_stats. rewrite U. rewrite filter_none; [reflexivity|].
    intros r Hr. apply Z.eqb_neq. now apply N.
  - intros rs L. apply length_zero_iff_nil in L. now subst rs.
Qed.

Lemma stats_of_no_rides_witness :
  user_by_any_email db_alice (Some (lit "alice@example.com")) = Some alice /\
  get_stats (fun _ => None) (lit "alice@example.com") 10 2026 db_alice
    = Stats 0 0 0 0 0.
Proof.
  assert (U : user_by_any_email db_alice (Some (lit "alice@example.com"))
              = Some alice) by (vm_compute; reflexivity).
  split; [exact U|].
  assert (N : forall r, In r (rides db_alice) -> row_user r <> user_id alice)
    by (intros r []).
  exact (proj1 (@stats_of_no_rides (fun _ => None) (lit "alice@example.com")
                  10%Z 2026%Z db_alice alice U N)).
Defined.

(** C10.  Deleting a ride whose identifier matches no stored ride answers
    success with a deleted count of 0 and leaves the store unchanged. *)
Theorem delete_missing_ride
    (sql_id_eq : Z -> jsstring -> bool) (id : jsstring) (db : DB) :
  (forall r, In r (rides db) -> sql_id_eq (row_id r) id = false) ->
  delete_ride sql_id_eq id db = (Deleted 0, db).
Proof.
  intros H. unfold delete_ride.
  rewrite filter_all.
  - rewrite Nat.sub_diag. now destruct db.
  - intros r Hr. now rewrite (H r Hr).
Qed.

Lemma delete_missing_ride_witness :
  (forall r, In r (rides db_one_ride) ->
     id_eq_digits (row_id r) (lit "7") = false) /\
  delete_ride id_eq_digits (lit "7") db_one_ride = (Deleted 0, db_one_ride).
Proof.
  assert (H : forall r, In r (rides db_one_ride) ->
                id_eq_digits (row_id r) (lit "7") = false).
  { intros r [<-|[]]. vm_compute. reflexivity. }
  split; [exact H|]. exact (delete_missing_ride id_eq_digits (lit "7") _ H).
Defined.

(* ================================================================= *)
(** ** The fare of a receipt of a known platform *)



(* ================================================================= *)
(** ** The scenarios of the specification *)

Example scenario_uber_receipt :
  exists ride,
    detect_and_parse mail_scenario_uber
      = (Some ride, [ParserCalled (lit "uber")]) /\
    platform ride = lit "uber" /\
    value ride = Some (Num (round_double (4590 # 100))) /\
    origin ride = Some (lit "Av. Paulista, 1000") /\
    destination ride = Some (lit "Aeroporto") /\
    datetime ride = None.
Proof.
  eexists. split; [vm_compute; reflexivity|]. repeat split.
Qed.

Example scenario_99_receipt :
  exists ride,
    detect_and_parse mail_scenario_99
      = (Some ride, [ParserCalled (lit "99")]) /\
    platform ride = lit "99" /\
    value ride = Some (Num (round_double (2350 # 100))) /\
    origin ride = Some (lit "Centro") /\
    destination ride = Some (lit "Zona Sul").
Proof.
  eexists. split; [vm_compute; reflexivity|]. repeat split.
Qed.

(** The first place where the pattern can start is the one that is read:
    an earlier amount without a separator is taken whole, and after an
    earlier [R$ ,] the value is NaN and there is no candidate. *)
Example first_price_is_read :
  extract_value (lit "Desconto R$ 5 Total R$ 45,90") []
    = Some (Num (5 # 1)) /\
  extract_value (lit "R$ , Total R$ 45,90") [] = Some NaN /\
  parseUberReceipt (lit "R$ , Total R$ 45,90") [] = None.
Proof.
  repeat split; vm_compute; reflexivity.
Qed.

(** The month ['março'] is a key of the table, but [\w+] does not match its
    [ç]: the date pattern finds nothing and the timestamp stays unset. *)
Example march_date_is_not_matched :
  str_match text_march uber_date_re = None /\
  exists ride,
    parseUberReceipt text_march [] = Some ride /\ datetime ride = None.
Proof.
  split; [vm_compute; reflexivity|].
  eexists. split; [vm_compute; reflexivity|]. reflexivity.
Qed.

(* ================================================================= *)
(** ** The receipt parsers: fare, date and route of a candidate *)

(** X1.  A candidate that either parser returns carries a fare that is a
    number above zero: never NaN, zero or a negative number. *)
Lemma parser_fare_positive (text html : jsstring) (ride : Ride) :
  parseUberReceipt text html = Some ride \/ parse99Receipt text html = Some ride ->
  exists q, value ride = Some (Num q) /\ (0 < q)%Q.
Proof.
  intros H.
  assert (F : value ride = extract_value text html /\
              value_truthy (value ride) = true).
  { destruct H as [H|H].
    - apply parseUber_fields in H. tauto.
    - apply parse99_fields in H. tauto. }
  destruct F as [Hv Ht].
  destruct (value ride) as [[|q]|] eqn:E; try discriminate.
  exists q. split; trivial. apply truthy_nonneg_positive; trivial.
  symmetry in Hv. now apply extract_value_nonneg in Hv.
Qed.

Lemma parser_fare_positive_witness :
  parseUberReceipt (lit "Total: R$ 45,90") [] = Some ride_uber_fare /\
  exists q, value ride_uber_fare = Some (Num q) /\ (0 < q)%Q.
Proof.
  assert (H : parseUberReceipt (lit "Total: R$ 45,90") [] = Some ride_uber_fare)
    by (vm_compute; reflexivity).
  split; [exact H|].
  exact (@parser_fare_positive _ _ _ (or_introl H)).
Defined.

Lemma no_dollar_no_value (text html : jsstring) :
  no_dollar text -> no_dollar html -> extract_value text html = None.
Proof.
  intros Ht Hh. unfold extract_value.
  now rewrite (fare_no_match Ht), (fare_no_match Hh).
Qed.

(** X2.  A mail whose text and HTML hold no [$] gives no candidate, with
    either parser; [processEmail] rejects it with the message of the failed
    extraction, whatever the sender, the subject and the recipient, and
    leaves the store as it was. *)
Theorem no_dollar_no_candidate
    (mail : Mail) (raw : jsstring) (u : option jsstring) (now : Z) (db : DB) :
  no_dollar (or_empty (mail_text mail)) ->
  no_dollar (or_empty (mail_html mail)) ->
  parseUberReceipt (or_empty (mail_text mail)) (or_empty (mail_html mail)) = None /\
  parse99Receipt (or_empty (mail_text mail)) (or_empty (mail_html mail)) = None /\
  outcome (processEmail mail raw u now db) = Rejected msg_no_extraction /\
  db_after (processEmail mail raw u now db) = db.
Proof.
  intros Ht Hh.
  pose proof (no_dollar_no_value Ht Hh) as V.
  assert (PU : parseUberReceipt (or_empty (mail_text mail))
                 (or_empty (mail_html mail)) = None).
  { unfold parseUberReceipt. cbn [value]. now rewrite V. }
  assert (P9 : parse99Receipt (or_empty (mail_text mail))
                 (or_empty (mail_html mail)) = None).
  { unfold parse99Receipt. cbn [value]. now rewrite V. }
  split; [exact PU|]. split; [exact P9|].
  assert (D : exists called, detect_and_parse mail = (None, called)).
  { unfold detect_and_parse. rewrite PU, P9.
    repeat match goal with
    | |- context [if ?b then _ else _] => destruct b
    end; eauto. }
  destruct D as (called & D).
  rewrite (@processEmail_no_candidate mail raw u now db called D). auto.
Qed.

Lemma no_dollar_no_candidate_witness :
  no_dollar (or_empty (mail_text mail_uber_no_fare)) /\
  no_dollar (or_empty (mail_html mail_uber_no_fare)) /\
  outcome (processEmail mail_uber_no_fare raw_bytes (Some alice_address) 0
             db_alice) = Rejected msg_no_extraction.
Proof.
  assert (Ht : no_dollar (or_empty (mail_text mail_uber_no_fare)))
    by (unfold no_dollar; cbn; repeat constructor).
  assert (Hh : no_dollar (or_empty (mail_html mail_uber_no_fare)))
    by (unfold no_dollar; cbn; repeat constructor).
  split; [exact Ht|]. split; [exact Hh|].
  exact (proj1 (proj2 (proj2
    (@no_dollar_no_candidate mail_uber_no_fare raw_bytes (Some alice_address)
       0%Z db_alice Ht Hh)))).
Defined.


Lemma str_eqb_eq (a b : jsstring) : str_eqb a b = true <-> a = b.
Proof.
  revert b. induction a as [|x a IH]; intros [|y b]; cbn;
    try (split; [discriminate | congruence]); try tauto.
  unfold char_eqb. rewrite andb_true_iff, N.eqb_eq, IH.
  split; [intros [-> ->]; reflexivity | intros [= -> ->]; auto].
Qed.




Lemma trimStart_stops (s : jsstring) : stops is_space (trimStart s).
Proof.
  induction s as [|h s IH]; cbn; trivial.
  destruct (is_space h) eqn:E; trivial.
Qed.

Lemma trimStart_suffix (s : jsstring) : exists p, s = p ++ trimStart s.
Proof.
  induction s as [|h s (p & IH)]; cbn.
  - now exists [].
  - destruct (is_space h).
    + exists (h :: p). cbn. now f_equal.
    + now exists [].
Qed.

Lemma trim_stops (s : jsstring) :
  stops is_space (trim s) /\ stops is_space (rev (trim s)).
Proof.
  unfold trim. set (t := trimStart s). split.
  - destruct (trimStart_suffix (rev t)) as (p & E).
    apply (f_equal (@rev char)) in E.
    rewrite rev_involutive, rev_app_distr in E.
    pose proof (trimStart_stops s) as St. fold t in St.
    destruct (rev (trimStart (rev t))) as [|h l]; cbn; trivial.
    rewrite E in St. exact St.
  - rewrite rev_involutive. apply trimStart_stops.
Qed.

(** X4.  The origin and the destination of a candidate, of either parser,
    neither start nor end with white space. *)
Theorem route_fields_are_trimmed
    (text html : jsstring) (ride : Ride) (s : jsstring) :
  parseUberReceipt text html = Some ride \/ parse99Receipt text html = Some ride ->
  origin ride = Some s \/ destination ride = Some s ->
  stops is_space s /\ stops is_space (rev s).
Proof.
  intros Hp Hs.
  assert (T : exists x, s = trim x).
  { destruct Hp as [Hp|Hp].
    - unfold parseUberReceipt in Hp.
      destruct (value_truthy _); [|discriminate]. injection Hp as <-.
      cbn [origin destination] in Hs.
      destruct (str_match text uber_route_re) as [m|]; cbn in Hs;
        destruct Hs as [[= <-]|[= <-]]; eauto.
    - unfold parse99Receipt in Hp.
      destruct (value_truthy _); [|discriminate]. injection Hp as <-.
      cbn [origin destination] in Hs.
      destruct Hs as [Hs|Hs].
      + destruct (str_match text origin99_re) as [m|]; cbn in Hs;
          [injection Hs as <-; eauto | discriminate].
      + destruct (str_match text dest99_re) as [m|]; cbn in Hs;
          [injection Hs as <-; eauto | discriminate]. }
  destruct T as (x & ->). apply trim_stops.
Qed.

Lemma route_fields_are_trimmed_witness :
  parseUberReceipt (or_empty (mail_text mail_scenario_uber)) []
    = Some ride_scenario_uber /\
  origin ride_scenario_uber = Some (lit "Av. Paulista, 1000") /\
  stops is_space (lit "Av. Paulista, 1000") /\
  stops is_space (rev (lit "Av. Paulista, 1000")).
Proof.
  assert (Hp : parseUberReceipt (or_empty (mail_text mail_scenario_uber)) []
               = Some ride_scenario_uber) by (vm_compute; reflexivity).
  assert (Ho : origin ride_scenario_uber = Some (lit "Av. Paulista, 1000"))
    by (vm_compute; reflexivity).
  split; [exact Hp|]. split; [exact Ho|].
  exact (@route_fields_are_trimmed _ _ _ _ (or_introl Hp) (or_introl Ho)).
Defined.

(* ================================================================= *)
(** ** The pipeline and the rows it writes *)

Lemma insert_ride_ok (db : DB) uid p v o d t raw :
  insert_ride db uid (Some p) (Some v) o d (Some t) raw =
    (inr (ride_seq db + 1)%Z,
     with_row db
       {| row_id := (ride_seq db + 1)%Z; row_user := uid;
          row_platform := Some p; row_value := Some v; row_origin := o;
          row_destination := d; row_datetime := Some t; row_raw := raw |}).
Proof. reflexivity. Qed.

Lemma processEmail_stores mail raw u now db ride called user t :
  detect_and_parse mail = (Some ride, called) ->
  user_by_unique_email db u = Some user ->
  bind_date (datetime_or_now ride now) = Some t ->
  processEmail mail raw u now db =
    {| outcome := Resolved (with_raw_email ride raw) (ride_seq db + 1)%Z;
       db_after := with_row db (stored_row db user ride raw t);
       trace := called ++ [UserLookup; RideInsert] |}.
Proof.
  intros D U T. unfold processEmail. rewrite D, U.
  destruct (@detect_and_parse_some _ _ _ D)
    as (p & _ & _ & _ & _ & q & Hq & _).
  cbn [platform value origin destination raw_email with_raw_email].
  change (datetime_or_now (with_raw_email ride raw) now)
    with (datetime_or_now ride now).
  rewrite T, Hq. cbn [bind_num]. rewrite insert_ride_ok.
  unfold stored_row. rewrite Hq. reflexivity.
Qed.

Lemma processEmail_resolved_inv mail raw u now db r id :
  outcome (processEmail mail raw u now db) = Resolved r id ->
  exists ride called user t,
    detect_and_parse mail = (Some ride, called) /\
    user_by_unique_email db u = Some user /\
    bind_date (datetime_or_now ride now) = Some t /\
    r = with_raw_email ride raw /\ id = (ride_seq db + 1)%Z.
Proof.
  unfold processEmail.
  destruct (detect_and_parse mail) as [[ride|] called] eqn:D;
    [|cbn; discriminate].
  destruct (user_by_unique_email db u) as [user|] eqn:U;
    [|cbn; discriminate].
  change (datetime_or_now (with_raw_email ride raw) now)
    with (datetime_or_now ride now).
  destruct (bind_date (datetime_or_now ride now)) as [t|] eqn:T.
  - destruct (@detect_and_parse_some _ _ _ D)
      as (p & _ & _ & _ & _ & q & Hq & _).
    cbn [platform value origin destination raw_email with_raw_email].
    rewrite Hq. cbn [bind_num]. rewrite insert_ride_ok. cbn.
    intros [= <- <-]. exists ride, called, user, t. auto.
  - unfold insert_ride. cbn [is_null].
    destruct (is_null (bind_num (value (with_raw_email ride raw))));
      cbn; discriminate.
Qed.

(** X5.  A candidate without a timestamp, sent to a known address, is
    resolved with its timestamp still unset, and the row written for it
    holds the time of the call. *)
Theorem missing_date_defaults_to_now
    (mail : Mail) (raw : jsstring) (u : option jsstring) (now : Z) (db : DB)
    (ride : Ride) (called : list Event) (user : User) :
  detect_and_parse mail = (Some ride, called) ->
  datetime ride = None ->
  user_by_unique_email db u = Some user ->
  let run := processEmail mail raw u now db in
  outcome run = Resolved (with_raw_email ride raw) (ride_seq db + 1)%Z /\
  datetime (with_raw_email ride raw) = None /\
  exists row,
    rides (db_after run) = rides db ++ [row] /\
    row_datetime row = Some (DateReal now) /\
    row_user row = user_id user.
Proof.
  intros D N U run. subst run.
  assert (T : bind_date (datetime_or_now ride now) = Some (DateReal now)).
  { unfold datetime_or_now. now rewrite N. }
  rewrite (@processEmail_stores mail raw u now db ride called user _ D U T).
  cbn. split; trivial. split; [exact N|].
  eexists. split; [reflexivity|]. split; reflexivity.
Qed.

Lemma missing_date_defaults_to_now_witness :
  detect_and_parse mail_uber_fare
    = (Some ride_uber_fare, [ParserCalled (lit "uber")]) /\
  datetime ride_uber_fare = None /\
  user_by_unique_email db_alice (Some alice_address) = Some alice /\
  outcome (processEmail mail_uber_fare raw_bytes (Some alice_address)
             1700000000000 db_alice)
    = Resolved (with_raw_email ride_uber_fare raw_bytes) 1%Z.
Proof.
  assert (D : detect_and_parse mail_uber_fare
              = (Some ride_uber_fare, [ParserCalled (lit "uber")]))
    by (vm_compute; reflexivity).
  assert (N : datetime ride_uber_fare = None) by reflexivity.
  assert (U : user_by_unique_email db_alice (Some alice_address) = Some alice)
    by (vm_compute; reflexivity).
  split; [exact D|]. split; [exact N|]. split; [exact U|].
  pose proof (@missing_date_defaults_to_now mail_uber_fare raw_bytes
                (Some alice_address) 1700000000000%Z db_alice ride_uber_fare
                [ParserCalled (lit "uber")] alice D N U) as P.
  cbv zeta in P. exact (proj1 P).
Defined.

(** X6.  An email that was accepted is accepted again when it is sent
    again: the second call resolves to the same record under the next id,
    and the store holds two rows that differ in id and timestamp at most.
    Nothing in the pipeline looks for an earlier copy. *)
Theorem same_email_is_stored_twice
    (mail : Mail) (raw : jsstring) (u : option jsstring) (now now' : Z)
    (db : DB) (r : Ride) (id : Z) :
  outcome (processEmail mail raw u now db) = Resolved r id ->
  let db1 := db_after (processEmail mail raw u now db) in
  let run2 := processEmail mail raw u now' db1 in
  outcome run2 = Resolved r (id + 1)%Z /\
  exists row1 row2,
    rides (db_after run2) = rides db ++ [row1; row2] /\
    row_id row1 = id /\ row_id row2 = (id + 1)%Z /\
    row_user row2 = row_user row1 /\
    row_platform row2 = row_platform row1 /\
    row_value row2 = row_value row1 /\
    row_origin row2 = row_origin row1 /\
    row_destination row2 = row_destination row1 /\
    row_raw row2 = row_raw row1.
Proof.
  intros H db1 run2.
  destruct (processEmail_resolved_inv _ _ _ _ _ H)
    as (ride & called & user & t & D & U & T & -> & ->).
  subst run2 db1.
  rewrite (@processEmail_stores mail raw u now db ride called user t D U T).
  cbn [db_after].
  assert (U1 : user_by_unique_email (with_row db (stored_row db user ride raw t)) u
               = Some user) by exact U.
  assert (T1 : exists t', bind_date (datetime_or_now ride now') = Some t').
  { unfold datetime_or_now in *. destruct (datetime ride); eauto.
    cbn. eauto. }
  destruct T1 as (t' & T1).
  rewrite (@processEmail_stores mail raw u now' _ ride called user t' D U1 T1).
  cbn. split; trivial.
  eexists. eexists. split.
  - rewrite <- app_assoc. reflexivity.
  - cbn. repeat split.
Qed.

Lemma same_email_is_stored_twice_witness :
  outcome (processEmail mail_uber_fare raw_bytes (Some alice_address) 5
             db_alice)
    = Resolved (with_raw_email ride_uber_fare raw_bytes) 1%Z /\
  outcome (processEmail mail_uber_fare raw_bytes (Some alice_address) 9
             (db_after (processEmail mail_uber_fare raw_bytes
                          (Some alice_address) 5 db_alice)))
    = Resolved (with_raw_email ride_uber_fare raw_bytes) 2%Z.
Proof.
  assert (H : outcome (processEmail mail_uber_fare raw_bytes
                         (Some alice_address) 5 db_alice)
              = Resolved (with_raw_email ride_uber_fare raw_bytes) 1%Z)
    by (vm_compute; reflexivity).
  split; [exact H|].
  pose proof (@same_email_is_stored_twice mail_uber_fare raw_bytes
                (Some alice_address) 5%Z 9%Z db_alice _ _ H) as P.
  cbv zeta in P. exact (proj1 P).
Defined.

(** X7.  When the sender or the subject names Uber, an accepted receipt is
    tagged [uber] and only the Uber parser was called, even if the mail
    names 99 as well. *)
Theorem uber_takes_precedence
    (mail : Mail) (raw : jsstring) (u : option jsstring) (now : Z) (db : DB)
    (r : Ride) (id : Z) :
  mentions mail (lit "uber") = true ->
  outcome (processEmail mail raw u now db) = Resolved r id ->
  platform r = lit "uber" /\
  trace (processEmail mail raw u now db)
    = [ParserCalled (lit "uber"); UserLookup; RideInsert].
Proof.
  intros M H.
  destruct (processEmail_resolved_inv _ _ _ _ _ H)
    as (ride & called & user & t & D & U & T & -> & ->).
  rewrite (@processEmail_stores mail raw u now db ride called user t D U T).
  cbn [trace platform with_raw_email].
  unfold detect_and_parse in D. unfold mentions in M. rewrite M in D.
  injection D as Hp <-. apply parseUber_fields in Hp.
  destruct Hp as (P & _). split; [exact P | reflexivity].
Qed.

Lemma uber_takes_precedence_witness :
  mentions mail_both (lit "uber") = true /\
  mentions mail_both (lit "99") = true /\
  outcome (processEmail mail_both raw_bytes (Some alice_address) 5 db_alice)
    = Resolved (with_raw_email ride_uber_fare raw_bytes) 1%Z /\
  platform (with_raw_email ride_uber_fare raw_bytes) = lit "uber".
Proof.
  assert (M : mentions mail_both (lit "uber") = true)
    by (vm_compute; reflexivity).
  assert (H : outcome (processEmail mail_both raw_bytes (Some alice_address)
                         5 db_alice)
              = Resolved (with_raw_email ride_uber_fare raw_bytes) 1%Z)
    by (vm_compute; reflexivity).
  split; [exact M|]. split; [vm_compute; reflexivity|]. split; [exact H|].
  exact (proj1 (@uber_takes_precedence mail_both raw_bytes
                  (Some alice_address) 5%Z db_alice _ _ M H)).
Defined.

(** X8.  The webhook answers with the ride and its id, or with status 400:
    an accepted ride carries the raw email, its id is the next of the
    counter and its row is the one row added; after a 400 the store is as
    it was. *)
Theorem webhook_answers
    (mail : Mail) (raw : jsstring) (header_to query_to : option jsstring)
    (now : Z) (db : DB) :
  match webhook_email mail raw header_to query_to now db with
  | (EmailAccepted r id, db') =>
      raw_email r = Some raw /\ id = (ride_seq db + 1)%Z /\
      users db' = users db /\
      exists row, rides db' = rides db ++ [row] /\ row_id row = id /\
                  row_raw row = Some raw
  | (Failure status message, db') => status = 400%Z /\ db' = db
  | _ => False
  end.
Proof.
  unfold webhook_email.
  destruct (processEmail_settles mail raw (to_email header_to query_to) now db)
    as [| | |ride called user row D U Hid]; cbn; auto.
  repeat split; trivial. exists row. auto.
Qed.

(* ================================================================= *)
(** ** The rows of the store under the three writes *)

(** X9.  Each write leaves the users alone; an email and a manual entry
    keep every row and add one row at most at the end; a deletion keeps the
    counter and the rows whose id is not the one asked for, in their
    order. *)
Theorem writes_keep_existing_rows
    (sql_id_eq : Z -> jsstring -> bool) (db : DB) :
  (forall mail raw u now,
     let db' := db_after (processEmail mail raw u now db) in
     users db' = users db /\
     exists l, rides db' = rides db ++ l /\ (length l <= 1)%nat) /\
  (forall b now,
     let db' := snd (add_ride b now db) in
     users db' = users db /\
     exists l, rides db' = rides db ++ l /\ (length l <= 1)%nat) /\
  (forall id,
     let db' := snd (delete_ride sql_id_eq id db) in
     users db' = users db /\ ride_seq db' = ride_seq db /\
     rides db' = filter (fun r => negb (sql_id_eq (row_id r) id)) (rides db) /\
     incl (rides db') (rides db)).
Proof.
  repeat split.
  - destruct (processEmail_settles mail raw u now db); reflexivity.
  - destruct (processEmail_settles mail raw u now db); cbn [db_after rides];
      try (exists []; rewrite app_nil_r; split; [reflexivity | cbn; lia]).
    exists [row]. split; [reflexivity | cbn; lia].
  - unfold add_ride.
    destruct (user_by_any_email db (body_userEmail b)); trivial.
    match goal with
    | |- context [insert_ride ?a ?b ?c ?d ?e ?f ?g ?h] =>
        destruct (insert_ride_cases a b c d e f g h)
          as [(err & ->)|(pv & vv & tv & Hp & Hv & Ht & ->)]
    end; reflexivity.
  - unfold add_ride.
    destruct (user_by_any_email db (body_userEmail b));
      [|exists []; rewrite app_nil_r; split; [reflexivity | cbn; lia]].
    match goal with
    | |- context [insert_ride ?a ?b ?c ?d ?e ?f ?g ?h] =>
        destruct (insert_ride_cases a b c d e f g h)
          as [(err & ->)|(pv & vv & tv & Hp & Hv & Ht & ->)]
    end; cbn [snd rides].
    + exists []. rewrite app_nil_r. split; [reflexivity | cbn; lia].
    + eexists [_]. split; [reflexivity | cbn; lia].
  - intros r Hr. cbn in Hr. apply filter_In in Hr. apply Hr.
Qed.

Lemma rides_wf_with_row (db : DB) (row : RideRow) :
  rides_wf db -> row_id row = (ride_seq db + 1)%Z -> rides_wf (with_row db row).
Proof.
  intros [N B] E. unfold rides_wf, with_row. cbn [rides ride_seq]. split.
  - rewrite map_app. cbn [List.map].
    apply NoDup_app; trivial.
    + constructor; [intros [] | constructor].
    + intros x Hx [<-|[]]. apply in_map_iff in Hx.
      destruct Hx as (r & Hr & Hin). rewrite Forall_forall in B.
      specialize (B r Hin). lia.
  - apply Forall_app. split.
    + eapply Forall_impl; [|exact B]. cbn. intros r Hr. lia.
    + constructor; [lia | constructor].
Qed.

Lemma NoDup_map_filter {A B : Type} (f : A -> B) (p : A -> bool) (l : list A) :
  NoDup (List.map f l) -> NoDup (List.map f (filter p l)).
Proof.
  induction l as [|a l IH]; cbn; trivial.
  intros H. inversion H as [|? ? Hn Hl]; subst. destruct (p a); cbn; auto.
  constructor; auto. intros Hin. apply Hn.
  apply in_map_iff in Hin. destruct Hin as (x & <- & Hx).
  apply in_map. apply filter_In in Hx. apply Hx.
Qed.

(** X10.  In a store whose ride ids are distinct and not above the
    counter, they stay so under every write: an email, a manual entry and
    a deletion; the counter never goes down, so an id is not given
    twice. *)
Theorem ride_ids_stay_fresh (sql_id_eq : Z -> jsstring -> bool) (db : DB) :
  rides_wf db ->
  (forall mail raw u now,
     let db' := db_after (processEmail mail raw u now db) in
     rides_wf db' /\ (ride_seq db <= ride_seq db')%Z) /\
  (forall b now,
     let db' := snd (add_ride b now db) in
     rides_wf db' /\ (ride_seq db <= ride_seq db')%Z) /\
  (forall id,
     let db' := snd (delete_ride sql_id_eq id db) in
     rides_wf db' /\ ride_seq db' = ride_seq db).
Proof.
  intros W. split; [|split].
  - intros mail raw u now db'. subst db'.
    destruct (processEmail_settles mail raw u now db) as [| | |? ? ? row];
      cbn [db_after ride_seq]; try (split; [exact W | lia]).
    split; [|lia]. apply (@rides_wf_with_row db row W). assumption.
  - intros b now db'. subst db'. unfold add_ride.
    destruct (user_by_any_email db (body_userEmail b));
      [|split; [exact W | cbn; lia]].
    match goal with
    | |- context [insert_ride ?a ?b ?c ?d ?e ?f ?g ?h] =>
        destruct (insert_ride_cases a b c d e f g h)
          as [(err & ->)|(pv & vv & tv & Hp & Hv & Ht & ->)]
    end; cbn [snd ride_seq]; (split; [|lia]); [exact W|].
    match goal with
    | |- rides_wf {| users := _; rides := _ ++ [?row]; ride_seq := _ |} =>
        apply (@rides_wf_with_row db row W)
    end. reflexivity.
  - intros id db'. subst db'. split; [|reflexivity].
    destruct W as [N B]. unfold delete_ride.
    split; cbn [snd rides ride_seq].
    + now apply NoDup_map_filter.
    + rewrite Forall_forall in *. intros r Hr. apply filter_In in Hr.
      apply B, Hr.
Qed.

Lemma ride_ids_stay_fresh_witness :
  rides_wf db_two_users /\
  rides_wf (snd (add_ride body_alice 7 db_two_users)).
Proof.
  assert (W : rides_wf db_two_users).
  { unfold rides_wf. cbn. split.
    - repeat constructor; cbn; lia.
    - repeat constructor; cbn; lia. }
  split; [exact W|].
  exact (proj1 (proj1 (proj2 (@ride_ids_stay_fresh id_eq_digits db_two_users W))
                  body_alice 7%Z)).
Defined.

Lemma filter_filter_same {A : Type} (p : A -> bool) (l : list A) :
  filter p (filter p l) = filter p l.
Proof.
  induction l as [|a l IH]; cbn; trivial.
  destruct (p a) eqn:E; cbn; rewrite ?E, IH; reflexivity.
Qed.

Lemma filter_split_length {A : Type} (p : A -> bool) (l : list A) :
  (length l - length (filter (fun a => negb (p a)) l))%nat
  = length (filter p l).
Proof.
  induction l as [|a l IH]; [reflexivity|].
  pose proof (filter_length_le (fun a => negb (p a)) l).
  cbn [filter]. destruct (p a); cbn [negb length]; lia.
Qed.

(** X11.  The count that a deletion answers is the number of rows whose id
    equals the parameter; no such row is left afterwards; and the same
    deletion asked again answers 0 and changes nothing. *)
Theorem delete_counts_and_repeats
    (sql_id_eq : Z -> jsstring -> bool) (id : jsstring) (db : DB) :
  fst (delete_ride sql_id_eq id db)
    = Deleted (length (filter (fun r => sql_id_eq (row_id r) id) (rides db))) /\
  (forall r, In r (rides (snd (delete_ride sql_id_eq id db))) ->
     sql_id_eq (row_id r) id = false) /\
  delete_ride sql_id_eq id (snd (delete_ride sql_id_eq id db))
    = (Deleted 0, snd (delete_ride sql_id_eq id db)).
Proof.
  split; [|split].
  - unfold delete_ride. cbn [fst]. f_equal.
    apply (filter_split_length (fun r => sql_id_eq (row_id r) id)).
  - unfold delete_ride. cbn [snd rides]. intros r Hr.
    apply filter_In in Hr. now apply negb_true_iff.
  - unfold delete_ride. cbn [snd rides users ride_seq].
    rewrite filter_filter_same, Nat.sub_diag. reflexivity.
Qed.

(** X12.  A manual entry followed by the deletion of the id it was given
    removes that row and no other: the rows are those of before, and only
    the counter has moved. *)
Theorem add_then_delete
    (sql_id_eq : Z -> jsstring -> bool) (b : RideBody) (now : Z) (db : DB)
    (p : jsstring) (id : Z) pl v o d t :
  fst (add_ride b now db) = RideCreated id pl v o d t ->
  sql_id_eq id p = true ->
  (forall r, In r (rides db) -> sql_id_eq (row_id r) p = false) ->
  delete_ride sql_id_eq p (snd (add_ride b now db))
  = (Deleted 1, {| users := users db; rides := rides db; ride_seq := id |}).
Proof.
  intros H Hid Hold. unfold add_ride in *.
  destruct (user_by_any_email db (body_userEmail b)); [|discriminate].
  match goal with
  | H : context [insert_ride ?a ?b ?c ?d ?e ?f ?g ?h] |- _ =>
      destruct (insert_ride_cases a b c d e f g h)
        as [(err & E)|(pv & vv & tv & Hp & Hv & Ht & E)];
      rewrite E in *; clear E
  end; [discriminate|].
  cbn [fst] in H. injection H as <- _ _ _ _ _.
  unfold delete_ride. cbn [snd rides users ride_seq].
  rewrite filter_app. cbn [filter row_id]. rewrite Hid. cbn [negb].
  rewrite app_nil_r, filter_all
    by (intros r Hr; now rewrite (Hold r Hr)).
  rewrite length_app. cbn [length].
  replace (length (rides db) + 1 - length (rides db))%nat with 1%nat by lia.
  reflexivity.
Qed.

Lemma add_then_delete_witness :
  fst (add_ride body_alice 7 db_one_ride)
    = RideCreated 2 (Some (lit "uber")) (Some (10 # 1)%Q)
        (Some (lit "Centro")) None (Some (lit "2024-01-15T10:00:00Z")) /\
  id_eq_digits 2 (lit "2") = true /\
  (forall r, In r (rides db_one_ride) ->
     id_eq_digits (row_id r) (lit "2") = false) /\
  delete_ride id_eq_digits (lit "2") (snd (add_ride body_alice 7 db_one_ride))
    = (Deleted 1, {| users := users db_one_ride; rides := rides db_one_ride;
                     ride_seq := 2 |}).
Proof.
  assert (H : fst (add_ride body_alice 7 db_one_ride)
              = RideCreated 2 (Some (lit "uber")) (Some (10 # 1)%Q)
                  (Some (lit "Centro")) None
                  (Some (lit "2024-01-15T10:00:00Z")))
    by (vm_compute; reflexivity).
  assert (Hid : id_eq_digits 2 (lit "2") = true) by (vm_compute; reflexivity).
  assert (Hold : forall r, In r (rides db_one_ride) ->
                   id_eq_digits (row_id r) (lit "2") = false).
  { intros r [<-|[]]. vm_compute. reflexivity. }
  split; [exact H|]. split; [exact Hid|]. split; [exact Hold|].
  exact (@add_then_delete id_eq_digits body_alice 7%Z db_one_ride (lit "2")
           _ _ _ _ _ _ H Hid Hold).
Defined.

(** X13.  The answer of a manual entry whose fields have the types of
    the API, case by case: 404 when the email names no user, 500 when the
    platform or the value is missing, and in both cases the store is as it
    was; otherwise the id is the next of the counter and the row added
    holds the user, the platform and the value of the body, no raw email,
    and, when the body has no timestamp or an empty one, the time of the
    call. *)
Theorem add_ride_outcome (b : RideBody) (now : Z) (db : DB) :
  match add_ride b now db with
  | (RideCreated id pl v o d t, db') =>
      exists user row,
        user_by_any_email db (body_userEmail b) = Some user /\
        body_platform b <> None /\ body_value b <> None /\
        id = (ride_seq db + 1)%Z /\
        rides db' = rides db ++ [row] /\
        row_id row = id /\ row_user row = user_id user /\
        row_platform row = body_platform b /\
        row_value row = body_value b /\
        row_raw row = None /\
        row_datetime row <> None /\
        (body_datetime b = None \/ body_datetime b = Some [] ->
         row_datetime row = Some (DateReal now))
  | (Failure status error, db') =>
      db' = db /\
      ((status = 404%Z /\ user_by_any_email db (body_userEmail b) = None) \/
       (status = 500%Z /\ user_by_any_email db (body_userEmail b) <> None /\
        (body_platform b = None \/ body_value b = None)))
  | _ => False
  end.
Proof.
  unfold add_ride.
  destruct (user_by_any_email db (body_userEmail b)) as [user|] eqn:U.
  - unfold insert_ride.
    destruct (body_platform b) as [pl|] eqn:P; cbn [is_null].
    + destruct (body_value b) as [v|] eqn:V; cbn [is_null].
      * destruct (body_datetime b) as [[|c s]|]; cbn [is_null bind_date];
          (exists user; eexists; split; [reflexivity|];
           repeat (split; [try discriminate; try reflexivity|]);
           cbn [row_datetime]; try (intros _; reflexivity);
           intros [H|H]; discriminate).
      * split; trivial. right. repeat split; try discriminate. now right.
    + split; trivial. right. repeat split; try discriminate. now left.
  - split; trivial. left. auto.
Qed.

(* ================================================================= *)
(** ** The statistics *)

Lemma aggregate_fields my m y rs :
  aggregate my m y rs =
    Stats (sum_values rs) (length rs)
      (if (0 <? length rs)%nat
       then round_double (sum_values rs / inject_Z (Z.of_nat (length rs)))%Q
       else 0%Q)
      (sum_values (filter (in_month my m y) rs))
      (length (filter (in_month my m y) rs)).
Proof. reflexivity. Qed.

(** X16.  The statistics of a user do not see what happens to the rides of
    the others: a manual entry or an email for another user, and the
    deletion of rows of other users, leave the user's statistics as they
    were. *)
Theorem stats_ignore_other_users
    (my : option DateCell -> option (Z * Z))
    (sql_id_eq : Z -> jsstring -> bool)
    (e : jsstring) (m y : Z) (db : DB) (usr : User) :
  user_by_any_email db (Some e) = Some usr ->
  (forall b now v,
     user_by_any_email db (body_userEmail b) = Some v ->
     user_id v <> user_id usr ->
     get_stats my e m y (snd (add_ride b now db)) = get_stats my e m y db) /\
  (forall mail raw u now v,
     user_by_unique_email db u = Some v ->
     user_id v <> user_id usr ->
     get_stats my e m y (db_after (processEmail mail raw u now db))
     = get_stats my e m y db) /\
  (forall id,
     (forall r, In r (rides db) -> sql_id_eq (row_id r) id = true ->
                row_user r <> user_id usr) ->
     get_stats my e m y (snd (delete_ride sql_id_eq id db))
     = get_stats my e m y db).
Proof.
  intros U. split; [|split].
  - intros b now v Hv Hne. unfold add_ride. rewrite Hv.
    match goal with
    | |- context [insert_ride ?a ?b ?c ?d ?e ?f ?g ?h] =>
        destruct (insert_ride_cases a b c d e f g h)
          as [(err & ->)|(pv & vv & tv & Hp & Hv' & Ht & ->)]
    end; cbn [snd]; trivial.
    unfold get_stats. cbn [users rides].
    change (user_by_any_email
              {| users := users db; rides := _; ride_seq := _ |} (Some e))
      with (user_by_any_email db (Some e)).
    rewrite U, filter_app. cbn [filter row_user].
    replace (user_id v =? user_id usr)%Z with false
      by (symmetry; now apply Z.eqb_neq).
    now rewrite app_nil_r.
  - intros mail raw u now v Hv Hne.
    destruct (processEmail_settles mail raw u now db)
      as [| | |ride c us row D Us Hid Hus]; cbn [db_after]; trivial.
    unfold get_stats.
    change (user_by_any_email
              {| users := users db; rides := _; ride_seq := _ |} (Some e))
      with (user_by_any_email db (Some e)).
    rewrite U. cbn [rides]. rewrite filter_app. cbn [filter].
    rewrite Hus. assert (us = v) by congruence. subst us.
    replace (user_id v =? user_id usr)%Z with false
      by (symmetry; now apply Z.eqb_neq).
    now rewrite app_nil_r.
  - intros id H. unfold delete_ride, get_stats. cbn [snd].
    change (user_by_any_email
              {| users := users db; rides := _; ride_seq := _ |} (Some e))
      with (user_by_any_email db (Some e)).
    rewrite U. cbn [rides]. f_equal.
    induction (rides db) as [|r l IH]; trivial.
    cbn [filter].
    destruct (sql_id_eq (row_id r) id) eqn:E; cbn [negb filter].
    + assert (Hr : row_user r <> user_id usr) by (apply H; [now left | exact E]).
      replace (row_user r =? user_id usr)%Z with false
        by (symmetry; now apply Z.eqb_neq).
      apply IH. intros x Hx. apply H. now right.
    + destruct (row_user r =? user_id usr)%Z; [f_equal|];
        apply IH; intros x Hx; apply H; now right.
Qed.

Lemma stats_ignore_other_users_witness :
  user_by_any_email db_two_users (Some (lit "bob@example.com")) = Some bob /\
  user_by_any_email db_two_users (body_userEmail body_alice) = Some alice /\
  get_stats january_1970 (lit "bob@example.com") 0 1970
    (snd (add_ride body_alice 7 db_two_users))
  = get_stats january_1970 (lit "bob@example.com") 0 1970 db_two_users.
Proof.
  assert (U : user_by_any_email db_two_users (Some (lit "bob@example.com"))
              = Some bob) by (vm_compute; reflexivity).
  assert (V : user_by_any_email db_two_users (body_userEmail body_alice)
              = Some alice) by (vm_compute; reflexivity).
  split; [exact U|]. split; [exact V|].
  apply (proj1 (@stats_ignore_other_users january_1970 id_eq_digits
                  (lit "bob@example.com") 0%Z 1970%Z db_two_users bob U)
           body_alice 7%Z alice V).
  discriminate.
Defined.

(* ================================================================= *)
(** ** The ingestion address and the users *)

Lemma str_eqb_refl (a : jsstring) : str_eqb a a = true.
Proof. now apply str_eqb_eq. Qed.

Lemma str_eqb_neq (a b : jsstring) : a <> b -> str_eqb a b = false.
Proof.
  intros H. destruct (str_eqb a b) eqn:E; trivial.
  apply str_eqb_eq in E. contradiction.
Qed.

Lemma existsb_str_false (f : User -> jsstring) (s : jsstring) (us : list User) :
  existsb (fun u => str_eqb (f u) s) us = false <->
  forall u, In u us -> f u <> s.
Proof.
  split.
  - intros H u Hu E. 
    assert (existsb (fun u => str_eqb (f u) s) us = true).
    { apply existsb_exists. exists u. split; trivial. now apply str_eqb_eq. }
    congruence.
  - intros H. destruct (existsb _ us) eqn:E; trivial.
    apply existsb_exists in E. destruct E as (u & Hu & E).
    apply str_eqb_eq in E. now apply H in Hu.
Qed.

Lemma hex_digit_inj (a b : N) :
  (a < 16)%N -> (b < 16)%N -> hex_digit a = hex_digit b -> a = b.
Proof.
  unfold hex_digit. intros Ha Hb.
  destruct (N.ltb_spec a 10); destruct (N.ltb_spec b 10); lia.
Qed.

Lemma hex_digit_is_hex (a : N) : (a < 16)%N -> is_hex_char (hex_digit a) = true.
Proof.
  unfold hex_digit, is_hex_char, is_digit, in_range. intros Ha.
  destruct (N.ltb_spec a 10).
  - replace (N.leb 48 (48 + a)) with true by (symmetry; apply N.leb_le; lia).
    replace (N.leb (48 + a) 57) with true by (symmetry; apply N.leb_le; lia).
    reflexivity.
  - replace (N.leb 97 (87 + a)) with true by (symmetry; apply N.leb_le; lia).
    replace (N.leb (87 + a) 102) with true by (symmetry; apply N.leb_le; lia).
    apply orb_true_r.
Qed.

Lemma byte_lt_256 (b : Byte.byte) : (Byte.to_N b < 256)%N.
Proof.
  pose proof (Byte.to_N_bounded b). lia.
Qed.

Lemma hex_byte_inj (a b : Byte.byte) : hex_byte a = hex_byte b -> a = b.
Proof.
  unfold hex_byte. intros [= H1 H2].
  pose proof (byte_lt_256 a). pose proof (byte_lt_256 b).
  apply hex_digit_inj in H1;
    [|apply N.Div0.div_lt_upper_bound; lia
     |apply N.Div0.div_lt_upper_bound; lia].
  apply hex_digit_inj in H2; [|apply N.mod_lt; lia|apply N.mod_lt; lia].
  assert (E : Byte.to_N a = Byte.to_N b).
  { rewrite (N.div_mod (Byte.to_N a) 16), (N.div_mod (Byte.to_N b) 16) by lia.
    now rewrite H1, H2. }
  apply (f_equal Byte.of_N) in E. rewrite !Byte.of_to_N in E. congruence.
Qed.

Lemma to_hex_inj (a b : list Byte.byte) : to_hex a = to_hex b -> a = b.
Proof.
  revert b. induction a as [|x a IH]; intros [|y b]; cbn; trivial;
    try discriminate.
  intros [= H1 H2 H3]. f_equal.
  - apply hex_byte_inj. unfold hex_byte. now rewrite H1, H2.
  - now apply IH.
Qed.

(** X18.  Two different draws of bytes give two different ingestion
    addresses. *)
Theorem unique_email_injective (a b : list Byte.byte) :
  a <> b -> generateUniqueEmail a <> generateUniqueEmail b.
Proof.
  unfold generateUniqueEmail. intros N H. apply N.
  apply app_inv_head in H. apply app_inv_tail in H. now apply to_hex_inj.
Qed.

Lemma unique_email_injective_witness :
  six_bytes <> other_bytes /\
  generateUniqueEmail six_bytes <> generateUniqueEmail other_bytes.
Proof.
  assert (N : six_bytes <> other_bytes) by discriminate.
  split; [exact N|]. exact (@unique_email_injective _ _ N).
Defined.

Lemma to_hex_shape (bs : list Byte.byte) :
  length (to_hex bs) = (2 * length bs)%nat /\
  Forall (fun h => is_hex_char h = true) (to_hex bs).
Proof.
  unfold to_hex.
  induction bs as [|b bs [IL IF]]; cbn [flat_map hex_byte app length].
  - split; [reflexivity | constructor].
  - pose proof (byte_lt_256 b). split; [lia|].
    constructor; [|constructor; trivial]; apply hex_digit_is_hex.
    + apply N.Div0.div_lt_upper_bound; lia.
    + apply N.mod_lt; lia.
Qed.

(** X19.  The address made from six bytes has 35 characters: [corridas-],
    twelve hexadecimal digits in lower case, and [@ridetrack.app]. *)
Theorem unique_email_shape (bs : list Byte.byte) :
  length bs = 6%nat ->
  length (generateUniqueEmail bs) = 35%nat /\
  exists hex,
    generateUniqueEmail bs = lit "corridas-" ++ hex ++ lit "@ridetrack.app" /\
    length hex = 12%nat /\
    Forall (fun h => is_hex_char h = true) hex.
Proof.
  intros L. destruct (to_hex_shape bs) as [HL HF]. rewrite L in HL.
  split.
  - unfold generateUniqueEmail. rewrite !length_app, HL. reflexivity.
  - exists (to_hex bs). auto.
Qed.

Lemma unique_email_shape_witness :
  length six_bytes = 6%nat /\
  length (generateUniqueEmail six_bytes) = 35%nat.
Proof.
  assert (L : length six_bytes = 6%nat) by reflexivity.
  split; [exact L|]. exact (proj1 (@unique_email_shape six_bytes L)).
Defined.

Lemma user_id_le_max (us : list User) (u : User) :
  In u us -> (user_id u <= fold_right Z.max 0 (List.map user_id us))%Z.
Proof.
  induction us as [|x l IH]; intros Hu; [destruct Hu|].
  cbn. destruct Hu as [->|Hu]; [lia|]. specialize (IH Hu). lia.
Qed.

Lemma create_user_cases (e : option jsstring) (bs : list Byte.byte) (db : DB) :
  (exists e',
     e = Some e' /\
     (forall u, In u (users db) ->
        email u <> e' /\ unique_email u <> generateUniqueEmail bs) /\
     create_user e bs db =
       (UserCreated (next_user_id (users db)) e' (generateUniqueEmail bs)
          (lit "Configure seus apps para enviar recibos para: "
           ++ generateUniqueEmail bs),
        with_user db (new_user db e' (generateUniqueEmail bs)))) \/
  (create_user e bs db = (UserFailure 400 msg_email_taken, db) /\
   (e = None \/
    exists u, In u (users db) /\
      (Some (email u) = e \/ unique_email u = generateUniqueEmail bs))).
Proof.
  unfold create_user, insert_user.
  destruct e as [e'|]; [|right; auto].
  destruct (existsb (fun u => str_eqb (email u) e') (users db)) eqn:E1;
    cbn [orb].
  - right. split; trivial. right.
    apply existsb_exists in E1. destruct E1 as (u & Hu & E).
    apply str_eqb_eq in E. exists u. split; trivial. left. now rewrite E.
  - destruct (existsb (fun u => str_eqb (unique_email u)
                                  (generateUniqueEmail bs)) (users db)) eqn:E2.
    + right. split; trivial. right.
      apply existsb_exists in E2. destruct E2 as (u & Hu & E).
      apply str_eqb_eq in E. exists u. auto.
    + left. rewrite existsb_str_false in E1, E2.
      exists e'. repeat split; trivial.
      * now apply E1.
      * now apply E2.
Qed.

(** X20.  The answer of a registration, case by case: a user is created
    only when the body has an email and no stored user has that email or
    the address drawn; the new user gets an id above all others and is the
    one row added; otherwise the answer is 400 with the message of the
    email already registered, whatever the cause, and the store is as it
    was. *)
Theorem create_user_outcome
    (e : option jsstring) (bs : list Byte.byte) (db : DB) :
  match create_user e bs db with
  | (UserCreated id e' ue message, db') =>
      e = Some e' /\ ue = generateUniqueEmail bs /\
      (forall u, In u (users db) ->
         email u <> e' /\ unique_email u <> ue /\ (user_id u < id)%Z) /\
      db' = with_user db {| user_id := id; email := e'; unique_email := ue |}
  | (UserFailure status error, db') =>
      status = 400%Z /\ error = msg_email_taken /\ db' = db /\
      (e = None \/
       exists u, In u (users db) /\
         (Some (email u) = e \/ unique_email u = generateUniqueEmail bs))
  | _ => False
  end.
Proof.
  destruct (create_user_cases e bs db) as [(e' & -> & H & ->)|[-> H]].
  - repeat split; try (now apply H).
    pose proof (user_id_le_max _ _ H0). unfold next_user_id. lia.
  - auto.
Qed.

Lemma find_app_none {A : Type} (p : A -> bool) (l : list A) (a : A) :
  (forall x, In x l -> p x = false) -> p a = true ->
  find p (l ++ [a]) = Some a.
Proof.
  induction l as [|x l IH]; intros H Ha; cbn.
  - now rewrite Ha.
  - rewrite (H x) by now left. apply IH; trivial.
    intros y Hy. apply H. now right.
Qed.

(** X21.  The address answered by a registration receives: it resolves to
    the new user, and a receipt with a candidate that is sent to it is
    stored as a ride of that user, unless the candidate's timestamp is the
    Invalid Date (see C5): then the insertion fails and nothing is
    stored. *)
Theorem registered_address_receives
    (e : option jsstring) (bs : list Byte.byte) (db : DB)
    (id : Z) (e' ue message : jsstring)
    (mail : Mail) (raw : jsstring) (now : Z) (ride : Ride)
    (called : list Event) :
  fst (create_user e bs db) = UserCreated id e' ue message ->
  detect_and_parse mail = (Some ride, called) ->
  let db1 := snd (create_user e bs db) in
  let run := processEmail mail raw (Some ue) now db1 in
  user_by_unique_email db1 (Some ue)
    = Some {| user_id := id; email := e'; unique_email := ue |} /\
  (datetime ride <> Some InvalidDate ->
   exists rid row,
     outcome run = Resolved (with_raw_email ride raw) rid /\
     rides (db_after run) = rides db ++ [row] /\
     row_user row = id /\ row_id row = rid) /\
  (datetime ride = Some InvalidDate ->
   exists err, outcome run = Rejected err /\ db_after run = db1).
Proof.
  intros H D db1 run. subst run db1.
  destruct (create_user_cases e bs db) as [(e1 & -> & Hn & E)|[E _]];
    rewrite E in *; cbn [fst snd] in *; [|discriminate].
  injection H as <- <- <- <-.
  assert (U : user_by_unique_email
                (with_user db (new_user db e1 (generateUniqueEmail bs)))
                (Some (generateUniqueEmail bs))
              = Some (new_user db e1 (generateUniqueEmail bs))).
  { unfold user_by_unique_email, with_user. cbn [users].
    apply find_app_none.
    - intros x Hx. apply str_eqb_neq. now apply Hn.
    - apply str_eqb_refl. }
  split; [exact U|]. split.
  - intros Hv.
    assert (T : exists t, bind_date (datetime_or_now ride now) = Some t).
    { unfold datetime_or_now.
      destruct (datetime ride) as [[|t]|]; cbn [bind_date]; eauto.
      congruence. }
    destruct T as (t & T).
    rewrite (@processEmail_stores mail raw _ now _ ride called _ t D U T).
    cbn [outcome db_after]. eexists. eexists.
    split; [reflexivity|]. split; [reflexivity|]. split; reflexivity.
  - intros Hi. unfold processEmail. rewrite D, U.
    destruct (@detect_and_parse_some _ _ _ D)
      as (p & _ & _ & _ & _ & q & Hq & _).
    cbn [platform value origin destination raw_email with_raw_email].
    change (datetime_or_now (with_raw_email ride raw) now)
      with (datetime_or_now ride now).
    unfold datetime_or_now. rewrite Hi, Hq. cbn.
    eexists. split; reflexivity.
Qed.

Lemma registered_address_receives_witness :
  fst (create_user (Some (lit "alice@example.com")) six_bytes db_empty)
    = UserCreated 1 (lit "alice@example.com") alice_address
        (lit "Configure seus apps para enviar recibos para: "
         ++ alice_address) /\
  detect_and_parse mail_uber_fare
    = (Some ride_uber_fare, [ParserCalled (lit "uber")]) /\
  user_by_unique_email
    (snd (create_user (Some (lit "alice@example.com")) six_bytes db_empty))
    (Some alice_address) = Some alice /\
  exists rid row,
    outcome (processEmail mail_uber_fare raw_bytes (Some alice_address) 7
               (snd (create_user (Some (lit "alice@example.com")) six_bytes
                       db_empty)))
      = Resolved (with_raw_email ride_uber_fare raw_bytes) rid /\
    rides (db_after (processEmail mail_uber_fare raw_bytes
                       (Some alice_address) 7
                       (snd (create_user (Some (lit "alice@example.com"))
                               six_bytes db_empty))))
      = rides db_empty ++ [row] /\
    row_user row = 1%Z /\ row_id row = rid.
Proof.
  assert (H : fst (create_user (Some (lit "alice@example.com")) six_bytes
                     db_empty)
              = UserCreated 1 (lit "alice@example.com") alice_address
                  (lit "Configure seus apps para enviar recibos para: "
                   ++ alice_address)) by (vm_compute; reflexivity).
  assert (D : detect_and_parse mail_uber_fare
              = (Some ride_uber_fare, [ParserCalled (lit "uber")]))
    by (vm_compute; reflexivity).
  assert (V : datetime ride_uber_fare <> Some InvalidDate) by discriminate.
  split; [exact H|]. split; [exact D|].
  pose proof (@registered_address_receives _ six_bytes db_empty _ _ _ _
                mail_uber_fare raw_bytes 7%Z ride_uber_fare _ H D) as P.
  cbv zeta in P. destruct P as (P1 & P2 & _).
  split; [exact P1 | exact (P2 V)].
Defined.

(** X22.  A user just registered is found under the email and under the
    address, provided no stored user mixes the two up: none has the new
    email as address or the new address as email. *)
Theorem create_then_get
    (e : option jsstring) (bs : list Byte.byte) (db : DB)
    (id : Z) (e' ue message : jsstring) :
  fst (create_user e bs db) = UserCreated id e' ue message ->
  (forall u, In u (users db) -> unique_email u <> e' /\ email u <> ue) ->
  let db1 := snd (create_user e bs db) in
  get_user e' db1
    = UserFound {| user_id := id; email := e'; unique_email := ue |} /\
  get_user ue db1
    = UserFound {| user_id := id; email := e'; unique_email := ue |}.
Proof.
  intros H Hx db1. subst db1.
  destruct (create_user_cases e bs db) as [(e1 & -> & Hn & E)|[E _]];
    rewrite E in *; cbn [fst snd] in *; [|discriminate].
  injection H as <- <- <- <-.
  unfold get_user, user_by_any_email, with_user. cbn [users].
  split.
  - rewrite find_app_none; trivial.
    + intros x Hin. apply orb_false_iff.
      split; apply str_eqb_neq; [now apply Hn | now apply Hx].
    + cbn. now rewrite str_eqb_refl.
  - rewrite find_app_none; trivial.
    + intros x Hin. apply orb_false_iff.
      split; apply str_eqb_neq; [now apply Hx | now apply Hn].
    + cbn. rewrite str_eqb_refl. apply orb_true_r.
Qed.

Lemma create_then_get_witness :
  fst (create_user (Some (lit "bob@example.com")) other_bytes db_alice)
    = UserCreated 2 (lit "bob@example.com") (unique_email bob)
        (lit "Configure seus apps para enviar recibos para: "
         ++ unique_email bob) /\
  (forall u, In u (users db_alice) ->
     unique_email u <> lit "bob@example.com" /\ email u <> unique_email bob) /\
  get_user (lit "bob@example.com")
    (snd (create_user (Some (lit "bob@example.com")) other_bytes db_alice))
    = UserFound bob /\
  get_user (unique_email bob)
    (snd (create_user (Some (lit "bob@example.com")) other_bytes db_alice))
    = UserFound bob.
Proof.
  assert (H : fst (create_user (Some (lit "bob@example.com")) other_bytes
                     db_alice)
              = UserCreated 2 (lit "bob@example.com") (unique_email bob)
                  (lit "Configure seus apps para enviar recibos para: "
                   ++ unique_email bob)) by (vm_compute; reflexivity).
  assert (X : forall u, In u (users db_alice) ->
                unique_email u <> lit "bob@example.com" /\
                email u <> unique_email bob).
  { intros u [<-|[]]. split; vm_compute; discriminate. }
  split; [exact H|]. split; [exact X|].
  pose proof (@create_then_get _ other_bytes db_alice _ _ _ _ H X) as P.
  cbv zeta in P. exact P.
Defined.

(** X23.  In a store where no two users share an email, an address or an
    id, a registration, accepted or refused, leaves it so. *)
Theorem users_stay_distinct
    (e : option jsstring) (bs : list Byte.byte) (db : DB) :
  users_wf db -> users_wf (snd (create_user e bs db)).
Proof.
  intros (N1 & N2 & N3).
  destruct (create_user_cases e bs db) as [(e1 & -> & Hn & ->)|[-> _]];
    cbn [snd]; [|repeat split; trivial].
  unfold users_wf, with_user. cbn [users]. rewrite !map_app. cbn [List.map].
  assert (S : forall (A : Type) (l : list A) (a : A),
            NoDup l -> ~ In a l -> NoDup (l ++ [a])).
  { intros A l a Hl Ha. apply NoDup_app; trivial.
    - constructor; [intros [] | constructor].
    - intros x Hx [<-|[]]. contradiction. }
  repeat split; apply S; trivial; intros Hin; apply in_map_iff in Hin;
    destruct Hin as (u & Eu & Hu).
  - cbn [new_user email] in Eu. destruct (Hn u Hu). congruence.
  - cbn [new_user unique_email] in Eu. destruct (Hn u Hu). congruence.
  - cbn [new_user user_id] in Eu. pose proof (user_id_le_max _ _ Hu).
    unfold next_user_id in Eu. lia.
Qed.

Lemma users_stay_distinct_witness :
  users_wf db_alice /\
  users_wf (snd (create_user (Some (lit "bob@example.com")) other_bytes
                   db_alice)).
Proof.
  assert (W : users_wf db_alice).
  { unfold users_wf. cbn. repeat split; repeat constructor; intros []. }
  split; [exact W|].
  exact (@users_stay_distinct (Some (lit "bob@example.com")) other_bytes
           db_alice W).
Defined.

Lemma user_by_any_email_none (db : DB) (e : jsstring) :
  (forall u, In u (users db) -> email u <> e /\ unique_email u <> e) ->
  user_by_any_email db (Some e) = None.
Proof.
  intros H. unfold user_by_any_email.
  destruct (find _ (users db)) as [u|] eqn:F; trivial.
  apply find_some in F. destruct F as [Hu F].
  apply orb_true_iff in F. destruct (H u Hu) as [H1 H2].
  destruct F as [F|F]; apply str_eqb_eq in F; contradiction.
Qed.

(** X24.  A text that is neither the email nor the address of a stored
    user gets 404 with the same message from every handler keyed by the
    user: the user's data, the listing, the statistics and the manual
    entry, which then writes nothing. *)
Theorem unknown_user_is_404
    (cf : option DateCell -> option DateCell -> bool)
    (my : option DateCell -> option (Z * Z))
    (e : jsstring) (db : DB) :
  (forall u, In u (users db) -> email u <> e /\ unique_email u <> e) ->
  get_user e db = UserFailure 404 msg_user_not_found /\
  list_rides cf e db = RidesFailure 404 msg_user_not_found /\
  (forall m y, get_stats my e m y db = Failure 404 msg_user_not_found) /\
  (forall b now,
     body_userEmail b = Some e ->
     add_ride b now db = (Failure 404 msg_user_not_found, db)).
Proof.
  intros H. apply user_by_any_email_none in H.
  unfold get_user, list_rides, get_stats, add_ride. rewrite H.
  repeat split. intros b now ->. now rewrite H.
Qed.

Lemma unknown_user_is_404_witness :
  (forall u, In u (users db_alice) ->
     email u <> lit "carol@example.com" /\
     unique_email u <> lit "carol@example.com") /\
  get_user (lit "carol@example.com") db_alice
    = UserFailure 404 msg_user_not_found.
Proof.
  assert (H : forall u, In u (users db_alice) ->
                email u <> lit "carol@example.com" /\
                unique_email u <> lit "carol@example.com").
  { intros u [<-|[]]. split; vm_compute; discriminate. }
  split; [exact H|].
  exact (proj1 (@unknown_user_is_404 newest_first january_1970
                  (lit "carol@example.com") db_alice H)).
Defined.

(* ================================================================= *)
(** ** The listing of a user's rides *)

Section ListingFacts.

Variable cf : option DateCell -> option DateCell -> bool.

Lemma insert_row_perm (r : RideRow) (l : list RideRow) :
  Permutation (insert_row cf r l) (r :: l).
Proof.
  induction l as [|x l IH]; cbn; [reflexivity|].
  destruct (cf (row_datetime r) (row_datetime x)); [reflexivity|].
  rewrite IH. apply perm_swap.
Qed.

Lemma order_perm (l : list RideRow) :
  Permutation (order_by_datetime_desc cf l) l.
Proof.
  induction l as [|x l IH]; cbn; [reflexivity|].
  rewrite insert_row_perm. now constructor.
Qed.

Hypothesis cf_total : forall a b, cf a b = true \/ cf b a = true.

Lemma insert_row_sorted (r : RideRow) (l : list RideRow) :
  Sorted (before cf) l -> Sorted (before cf) (insert_row cf r l).
Proof.
  induction l as [|x l IH]; intros S; cbn.
  - repeat constructor.
  - destruct (cf (row_datetime r) (row_datetime x)) eqn:E.
    + constructor; trivial. constructor. exact E.
    + inversion S as [|? ? Sl Hd]; subst.
      constructor; [now apply IH|].
      assert (X : before cf x r).
      { destruct (cf_total (row_datetime r) (row_datetime x)); [congruence|].
        assumption. }
      destruct l as [|y l]; cbn.
      * now constructor.
      * destruct (cf (row_datetime r) (row_datetime y)); constructor; trivial.
        now inversion Hd.
Qed.

Lemma order_sorted (l : list RideRow) :
  Sorted (before cf) (order_by_datetime_desc cf l).
Proof.
  induction l as [|x l IH]; cbn; [constructor|].
  now apply insert_row_sorted.
Qed.

End ListingFacts.

Lemma newest_first_total (a b : option DateCell) :
  newest_first a b = true \/ newest_first b a = true.
Proof.
  destruct a as [[x|s]|], b as [[y|t]|]; cbn; auto.
  destruct (Z.leb_spec y x); auto. right. apply Z.leb_le. lia.
Qed.

(** X25.  The listing of a known user holds the user's rows and no other,
    each as often as it is stored, and under any total order of the
    timestamps each row may come before the next one. *)
Theorem list_rides_sorted_permutation
    (cf : option DateCell -> option DateCell -> bool)
    (e : jsstring) (db : DB) (user : User) :
  user_by_any_email db (Some e) = Some user ->
  (forall a b, cf a b = true \/ cf b a = true) ->
  exists rows,
    list_rides cf e db = RideList rows /\
    Permutation rows
      (filter (fun r => (row_user r =? user_id user)%Z) (rides db)) /\
    Sorted (before cf) rows /\
    (forall r, In r rows <-> In r (rides db) /\ row_user r = user_id user).
Proof.
  intros U T. unfold list_rides. rewrite U. eexists. split; [reflexivity|].
  split; [apply order_perm|]. split; [now apply order_sorted|].
  intros r. split.
  - intros H. apply (Permutation_in _ (order_perm cf _)) in H.
    apply filter_In in H. destruct H as [H1 H2]. split; trivial.
    now apply Z.eqb_eq.
  - intros [H1 H2]. apply (Permutation_in _ (Permutation_sym (order_perm cf _))).
    apply filter_In. split; trivial. now apply Z.eqb_eq.
Qed.

Lemma list_rides_sorted_permutation_witness :
  user_by_any_email db_two_users (Some (lit "alice@example.com"))
    = Some alice /\
  exists rows,
    list_rides newest_first (lit "alice@example.com") db_two_users
      = RideList rows /\
    Permutation rows
      (filter (fun r => (row_user r =? user_id alice)%Z)
         (rides db_two_users)) /\
    Sorted (before newest_first) rows /\
    (forall r, In r rows <->
               In r (rides db_two_users) /\ row_user r = user_id alice).
Proof.
  assert (U : user_by_any_email db_two_users (Some (lit "alice@example.com"))
              = Some alice) by (vm_compute; reflexivity).
  split; [exact U|].
  exact (@list_rides_sorted_permutation newest_first
           (lit "alice@example.com") db_two_users alice U newest_first_total).
Defined.

(** X26.  The listing and the statistics of a user agree on the number of
    rides: as many rows are listed as the count answered. *)
Theorem stats_match_listing
    (cf : option DateCell -> option DateCell -> bool)
    (my : option DateCell -> option (Z * Z))
    (e : jsstring) (m y : Z) (db : DB)
    (rows : list RideRow) t n a ms mr :
  list_rides cf e db = RideList rows ->
  get_stats my e m y db = Stats t n a ms mr ->
  length rows = n.
Proof.
  unfold list_rides, get_stats.
  destruct (user_by_any_email db (Some e)) as [usr|]; [|discriminate].
  intros [= <-]. rewrite aggregate_fields. intros [= _ <- _ _ _].
  apply Permutation_length, order_perm.
Qed.

Lemma stats_match_listing_witness :
  list_rides newest_first (lit "alice@example.com") db_two_users
    = RideList [row_two; row_one] /\
  get_stats january_1970 (lit "alice@example.com") 0 1970 db_two_users
    = Stats (2441795422964941 # 35184372088832) 2
        (2441795422964941 # 70368744177664)
        (6459850715509555 # 140737488355328) 1 /\
  length [row_two; row_one] = 2%nat.
Proof.
  assert (L : list_rides newest_first (lit "alice@example.com") db_two_users
              = RideList [row_two; row_one]) by (vm_compute; reflexivity).
  assert (H : get_stats january_1970 (lit "alice@example.com") 0 1970
                db_two_users
              = Stats (2441795422964941 # 35184372088832) 2
                  (2441795422964941 # 70368744177664)
                  (6459850715509555 # 140737488355328) 1)
    by (vm_compute; reflexivity).
  split; [exact L|]. split; [exact H|].
  exact (@stats_match_listing newest_first january_1970
           (lit "alice@example.com") 0%Z 1970%Z db_two_users _ _ _ _ _ _
           L H).
Defined.
